(** * Skill permission profiles of codex-rs/core (skills/permissions.rs)

    Shallow embedding of the permission-profile compiler, of the
    sandbox-policy merge, of the skill matcher and of the effective-permission
    resolver, together with the turn and worker controllers of the app server
    that the spec describes. *)

From Stdlib Require Import String Ascii.
From stdpp Require Import base gmap sets list strings.

(* ------------------------------------------------------------------ *)
(** ** Paths *)

(** An absolute, normalized path ([AbsolutePathBuf]) is the list of its
    normal components below the root directory; [PathBuf] values handled
    by the matcher are absolute as well. *)
Definition AbsolutePathBuf := list string.
Definition PathBuf := list string.

(** [Path::starts_with]: component-wise prefix test. [path_starts_with p base]
    is Rust's [p.starts_with(base)]. *)
Fixpoint path_starts_with (p base : list string) : bool :=
  match base, p with
  | [], _ => true
  | b :: bs, c :: cs => String.eqb c b && path_starts_with cs bs
  | _ :: _, [] => false
  end.

(** [Path::parent]: [None] for the root directory. *)
Definition path_parent (p : PathBuf) : option PathBuf :=
  match p with
  | [] => None
  | _ => Some (removelast p)
  end.

(* ------------------------------------------------------------------ *)
(** ** Protocol types *)

Module NetworkAccess.
Inductive t := Restricted | Enabled.
End NetworkAccess.

Module ReadOnlyAccess.
Inductive t :=
| FullAccess
| Restricted (include_platform_defaults : bool)
             (readable_roots : list AbsolutePathBuf).
End ReadOnlyAccess.

Module SandboxPolicy.
Inductive t :=
| DangerFullAccess
| ExternalSandbox (network_access : NetworkAccess.t)
| WorkspaceWrite (writable_roots : list AbsolutePathBuf)
                 (read_only_access : ReadOnlyAccess.t)
                 (network_access : bool)
                 (exclude_tmpdir_env_var : bool)
                 (exclude_slash_tmp : bool)
| ReadOnly (access : ReadOnlyAccess.t).
End SandboxPolicy.

Module AskForApproval.
Inductive t := UnlessTrusted | OnFailure | OnRequest | Never.
End AskForApproval.

Import SandboxPolicy.

(** Modelled from the spec: [SandboxPolicy::has_full_network_access] of the
    protocol crate (not under src/). Section 3 and 4.5 of the spec: full
    access is unrestricted, an external sandbox carries its [network] flag,
    a workspace-write policy its [network] field, and a read-only policy
    grants no network. *)
Definition has_full_network_access (p : SandboxPolicy.t) : bool :=
  match p with
  | DangerFullAccess => true
  | ExternalSandbox NetworkAccess.Enabled => true
  | ExternalSandbox NetworkAccess.Restricted => false
  | WorkspaceWrite _ _ na _ _ => na
  | ReadOnly _ => false
  end.

(** Modelled from the spec: [SandboxPolicy::new_read_only_policy] of the
    protocol crate (not under src/), "the default minimal read-only policy
    (no extra roots, only platform defaults)". *)
Definition new_read_only_policy : SandboxPolicy.t :=
  ReadOnly (ReadOnlyAccess.Restricted true []).

(* ------------------------------------------------------------------ *)
(** ** Approval-policy selection *)

Definition approval_policy_rank (p : AskForApproval.t) : nat :=
  match p with
  | AskForApproval.OnFailure => 0
  | AskForApproval.OnRequest => 1
  | AskForApproval.UnlessTrusted => 2
  | AskForApproval.Never => 3
  end.

Definition stricter_approval_policy (lhs rhs : AskForApproval.t) : AskForApproval.t :=
  if Nat.leb (approval_policy_rank rhs) (approval_policy_rank lhs) then lhs else rhs.

(* ------------------------------------------------------------------ *)
(** ** Sandbox-policy merge *)

Inductive WriteAccessKind := WAFullAccess | WAWorkspaceWrite | WAReadOnly.

(** The discriminants of [WriteAccessKind] (the derived [Ord]). *)
Definition write_access_kind_rank (k : WriteAccessKind) : nat :=
  match k with WAFullAccess => 0 | WAWorkspaceWrite => 1 | WAReadOnly => 2 end.

(** [std::cmp::max]: the second argument unless the first is greater. *)
Definition max_write_access_kind (a b : WriteAccessKind) : WriteAccessKind :=
  if Nat.ltb (write_access_kind_rank b) (write_access_kind_rank a) then a else b.

Definition write_access_kind (p : SandboxPolicy.t) : WriteAccessKind :=
  match p with
  | DangerFullAccess | ExternalSandbox _ => WAFullAccess
  | WorkspaceWrite _ _ _ _ _ => WAWorkspaceWrite
  | ReadOnly _ => WAReadOnly
  end.

Record WorkspacePolicyParts := {
  wp_writable_roots : list AbsolutePathBuf;
  wp_exclude_tmpdir_env_var : bool;
  wp_exclude_slash_tmp : bool;
}.

Definition workspace_policy_parts (p : SandboxPolicy.t) : option WorkspacePolicyParts :=
  match p with
  | WorkspaceWrite roots _ _ tmpenv slashtmp =>
      Some {| wp_writable_roots := roots;
              wp_exclude_tmpdir_env_var := tmpenv;
              wp_exclude_slash_tmp := slashtmp |}
  | _ => None
  end.

(** The candidate one pair [(left, right)] contributes. *)
Definition root_candidate (left right : AbsolutePathBuf) : option AbsolutePathBuf :=
  if path_starts_with left right then Some left
  else if path_starts_with right left then Some right
  else None.

(** One iteration of the inner loop: [roots] is the output vector, [seen]
    the [HashSet]. *)
Definition intersect_step (acc : list AbsolutePathBuf * gset AbsolutePathBuf)
    (candidate : option AbsolutePathBuf) : list AbsolutePathBuf * gset AbsolutePathBuf :=
  match candidate with
  | Some c =>
      if decide (c ∈ acc.2) then acc else (acc.1 ++ [c], {[c]} ∪ acc.2)
  | None => acc
  end.

Definition intersect_absolute_roots (lhs rhs : list AbsolutePathBuf) : list AbsolutePathBuf :=
  (fold_left (fun acc left =>
     fold_left (fun acc right => intersect_step acc (root_candidate left right)) rhs acc)
   lhs ([], ∅)).1.

Definition merge_workspace_roots (lhs rhs : option (list AbsolutePathBuf))
  : list AbsolutePathBuf :=
  match lhs, rhs with
  | Some l, Some r => intersect_absolute_roots l r
  | Some l, None => l
  | None, Some r => r
  | None, None => []
  end.

Definition read_access_for_policy (p : SandboxPolicy.t) : ReadOnlyAccess.t :=
  match p with
  | DangerFullAccess | ExternalSandbox _ => ReadOnlyAccess.FullAccess
  | ReadOnly access => access
  | WorkspaceWrite _ roa _ _ _ => roa
  end.

Definition merge_read_only_access (lhs rhs : ReadOnlyAccess.t) : ReadOnlyAccess.t :=
  match lhs, rhs with
  | ReadOnlyAccess.FullAccess, access => access
  | access, ReadOnlyAccess.FullAccess => access
  | ReadOnlyAccess.Restricted ld lroots, ReadOnlyAccess.Restricted rd rroots =>
      ReadOnlyAccess.Restricted (ld && rd) (intersect_absolute_roots lroots rroots)
  end.

Definition is_external_sandbox (p : SandboxPolicy.t) : bool :=
  match p with ExternalSandbox _ => true | _ => false end.

Definition merge_sandbox_policies (lhs rhs : SandboxPolicy.t) : SandboxPolicy.t :=
  let network_access := has_full_network_access lhs && has_full_network_access rhs in
  let strictest_write := max_write_access_kind (write_access_kind lhs) (write_access_kind rhs) in
  let read_access :=
    merge_read_only_access (read_access_for_policy lhs) (read_access_for_policy rhs) in
  match strictest_write with
  | WAReadOnly => ReadOnly read_access
  | WAWorkspaceWrite =>
      let lhs_workspace := workspace_policy_parts lhs in
      let rhs_workspace := workspace_policy_parts rhs in
      let writable_roots :=
        merge_workspace_roots (wp_writable_roots <$> lhs_workspace)
                              (wp_writable_roots <$> rhs_workspace) in
      WorkspaceWrite writable_roots read_access network_access
        (default false (wp_exclude_tmpdir_env_var <$> lhs_workspace)
         || default false (wp_exclude_tmpdir_env_var <$> rhs_workspace))
        (default false (wp_exclude_slash_tmp <$> lhs_workspace)
         || default false (wp_exclude_slash_tmp <$> rhs_workspace))
  | WAFullAccess =>
      if network_access then
        if is_external_sandbox lhs || is_external_sandbox rhs
        then ExternalSandbox NetworkAccess.Enabled
        else DangerFullAccess
      else ExternalSandbox NetworkAccess.Restricted
  end.

(* ------------------------------------------------------------------ *)
(** ** Root sets and policy equivalence *)

(** Two root lists hold the same roots. *)
Definition roots_equiv (l1 l2 : list AbsolutePathBuf) : Prop := ∀ x, x ∈ l1 ↔ x ∈ l2.

Definition read_access_equiv (a b : ReadOnlyAccess.t) : Prop :=
  match a, b with
  | ReadOnlyAccess.FullAccess, ReadOnlyAccess.FullAccess => True
  | ReadOnlyAccess.Restricted d1 r1, ReadOnlyAccess.Restricted d2 r2 =>
      d1 = d2 ∧ roots_equiv r1 r2
  | _, _ => False
  end.

(** Same variant, same flags, same roots (root lists compared as sets). *)
Definition policy_equiv (p q : SandboxPolicy.t) : Prop :=
  match p, q with
  | DangerFullAccess, DangerFullAccess => True
  | ExternalSandbox n1, ExternalSandbox n2 => n1 = n2
  | WorkspaceWrite w1 a1 n1 t1 s1, WorkspaceWrite w2 a2 n2 t2 s2 =>
      roots_equiv w1 w2 ∧ read_access_equiv a1 a2 ∧ n1 = n2 ∧ t1 = t2 ∧ s1 = s2
  | ReadOnly a1, ReadOnly a2 => read_access_equiv a1 a2
  | _, _ => False
  end.

Definition readable_roots_of (p : SandboxPolicy.t) : list AbsolutePathBuf :=
  match read_access_for_policy p with
  | ReadOnlyAccess.Restricted _ roots => roots
  | ReadOnlyAccess.FullAccess => []
  end.

Definition writable_roots_of (p : SandboxPolicy.t) : list AbsolutePathBuf :=
  match p with
  | WorkspaceWrite roots _ _ _ _ => roots
  | _ => []
  end.

(** [p] lets a command read [x]: unrestricted read access, or [x] lies at
    or below one of its readable roots. *)
Definition access_covers (a : ReadOnlyAccess.t) (x : AbsolutePathBuf) : Prop :=
  match a with
  | ReadOnlyAccess.FullAccess => True
  | ReadOnlyAccess.Restricted _ roots => ∃ r, r ∈ roots ∧ path_starts_with x r = true
  end.

Definition read_covers (p : SandboxPolicy.t) (x : AbsolutePathBuf) : Prop :=
  access_covers (read_access_for_policy p) x.

(** [p] lets a command write [x]: unrestricted write access, or [x] lies at
    or below one of its writable roots. *)
Definition write_covers (p : SandboxPolicy.t) (x : AbsolutePathBuf) : Prop :=
  match p with
  | DangerFullAccess | ExternalSandbox _ => True
  | WorkspaceWrite roots _ _ _ _ => ∃ r, r ∈ roots ∧ path_starts_with x r = true
  | ReadOnly _ => False
  end.

Definition access_roots (a : ReadOnlyAccess.t) : list AbsolutePathBuf :=
  match a with
  | ReadOnlyAccess.Restricted _ roots => roots
  | ReadOnlyAccess.FullAccess => []
  end.

(* ------------------------------------------------------------------ *)
(** ** Manifest and compiled profile *)

Inductive MacOsPreferencesValue :=
| PrefBool (b : bool)
| PrefMode (mode : string).

Inductive MacOsAutomationValue :=
| AutoBool (b : bool)
| AutoBundleIds (ids : list string).

Record SkillManifestMacOsPermissions := {
  preferences : option MacOsPreferencesValue;
  automations : option MacOsAutomationValue;
  accessibility : bool;
  calendar : bool;
}.

Record SkillManifestFileSystemPermissions := {
  read : list string;
  write : list string;
}.

Record SkillManifestPermissions := {
  manifest_network : bool;
  file_system : SkillManifestFileSystemPermissions;
  macos : SkillManifestMacOsPermissions;
}.

Inductive MacOsPreferencesPermission := PrefPermNone | PrefPermReadOnly | PrefPermReadWrite.
Inductive MacOsAutomationPermission :=
| AutoPermNone | AutoPermAll | AutoPermBundleIds (ids : list string).

Record MacOsSeatbeltProfileExtensions := {
  macos_preferences : MacOsPreferencesPermission;
  macos_automation : MacOsAutomationPermission;
  macos_accessibility : bool;
  macos_calendar : bool;
}.

(** [Permissions] of the config crate; [Constrained::allow_any v] is the
    value [v] itself, the shell-environment policy and the Windows sandbox
    mode are the constants the compiler stores. *)
Record Permissions := {
  approval_policy : AskForApproval.t;
  sandbox_policy : SandboxPolicy.t;
  network : option unit;
  windows_sandbox_mode : option unit;
  macos_seatbelt_profile_extensions : option MacOsSeatbeltProfileExtensions;
}.

Record SkillMetadata := {
  skill_name : string;
  skill_path : PathBuf;
  permission_profile : option Permissions;
}.

Record EffectiveCommandPermissions := {
  eff_approval_policy : AskForApproval.t;
  eff_sandbox_policy : SandboxPolicy.t;
  eff_sandbox_cwd : PathBuf;
  eff_macos_seatbelt_profile_extensions : option MacOsSeatbeltProfileExtensions;
}.

Record MatchedSkillPermissionProfile := {
  matched_profile : Permissions;
  matched_skill_dir : PathBuf;
}.

(* ------------------------------------------------------------------ *)
(** ** Strings *)

Definition is_ascii_whitespace (c : Ascii.ascii) : bool :=
  match Ascii.nat_of_ascii c with
  | 9 | 10 | 11 | 12 | 13 | 32 => true
  | _ => false
  end.

Fixpoint drop_whitespace (cs : list Ascii.ascii) : list Ascii.ascii :=
  match cs with
  | [] => []
  | c :: rest => if is_ascii_whitespace c then drop_whitespace rest else cs
  end.

(** [str::trim]. *)
Definition str_trim (s : string) : string :=
  string_of_list_ascii
    (rev (drop_whitespace (rev (drop_whitespace (list_ascii_of_string s))))).

(** [str::strip_prefix]. *)
Fixpoint strip_prefix (pre s : string) : option string :=
  match pre, s with
  | EmptyString, _ => Some s
  | String c pre', String d s' => if Ascii.eqb c d then strip_prefix pre' s' else None
  | String _ _, EmptyString => None
  end.

(** [home.join(rest).to_string_lossy()] on Unix: an absolute [rest]
    replaces the base, otherwise a separator is inserted when the base does
    not already end with one. *)
Definition join_lossy (base rest : string) : string :=
  match rest with
  | String "/" _ => rest
  | _ =>
      match last (list_ascii_of_string base) with
      | None => rest
      | Some "/"%char => base +:+ rest
      | Some _ => base +:+ "/" +:+ rest
      end
  end.

(* ------------------------------------------------------------------ *)
(** ** Approval/execution controller and worker sidecar

    The controller of the app server is not part of the sources at hand
    (only its integration tests are); the definitions below follow the
    spec, sections 4.6, 4.7, 5 and 7. *)

Inductive CommandExecutionStatus :=
| Pending | AwaitingApproval | Running | Completed | Declined.

Definition is_terminal (s : CommandExecutionStatus) : bool :=
  match s with Completed | Declined => true | _ => false end.

Inductive CommandExecutionApprovalDecision := Accept | Decline | Cancel.

Inductive TurnStatus := InProgress | TurnCompleted | Interrupted.

Record CommandExecutionItem := {
  item_status : CommandExecutionStatus;
  exit_code : option Z;
  aggregated_output : option string;
}.

Definition pending_item : CommandExecutionItem :=
  {| item_status := Pending; exit_code := None; aggregated_output := None |}.
Definition running_item : CommandExecutionItem :=
  {| item_status := Running; exit_code := None; aggregated_output := None |}.
Definition declined_item : CommandExecutionItem :=
  {| item_status := Declined; exit_code := None; aggregated_output := None |}.

Module TurnController.

Record Turn := {
  turn_status : TurnStatus;
  items : gmap nat CommandExecutionItem;
}.

(** Events the controller of one turn reacts to. *)
Inductive TurnEvent :=
| Resolve (item_id : nat) (needs_approval : bool)
| Decision (item_id : nat) (decision : CommandExecutionApprovalDecision)
| WorkerCompleted (item_id : nat) (exit_status : Z) (output : string)
| WorkerFault (item_id : nat)
| CancelSignal (item_id : nat)
| Finish.

Definition is_cancellation (e : TurnEvent) : bool :=
  match e with
  | Decision _ Cancel | CancelSignal _ => true
  | _ => false
  end.

Definition set_item (t : Turn) (id : nat) (it : CommandExecutionItem) (st : TurnStatus)
  : Turn :=
  {| turn_status := st; items := <[id := it]> (items t) |}.

(** One transition; [None] when the event is not enabled. A closed turn
    (completed or interrupted) accepts no further event. *)
Definition step (t : Turn) (e : TurnEvent) : option Turn :=
  match turn_status t with
  | InProgress =>
      match e with
      | Finish =>
          if forallb (fun '(_, it) => is_terminal (item_status it)) (map_to_list (items t))
          then Some {| turn_status := TurnCompleted; items := items t |}
          else None
      | Resolve id needs_approval =>
          it ← items t !! id;
          match item_status it with
          | Pending =>
              Some (set_item t id
                {| item_status := if needs_approval then AwaitingApproval else Running;
                   exit_code := None; aggregated_output := None |} InProgress)
          | _ => None
          end
      | Decision id d =>
          it ← items t !! id;
          match item_status it, d with
          | AwaitingApproval, Accept => Some (set_item t id running_item InProgress)
          | AwaitingApproval, Decline => Some (set_item t id declined_item InProgress)
          | AwaitingApproval, Cancel => Some (set_item t id declined_item Interrupted)
          | _, _ => None
          end
      | WorkerCompleted id code out =>
          it ← items t !! id;
          match item_status it with
          | Running =>
              Some (set_item t id
                {| item_status := Completed; exit_code := Some code;
                   aggregated_output := Some out |} InProgress)
          | _ => None
          end
      | WorkerFault id =>
          it ← items t !! id;
          match item_status it with
          | Running => Some (set_item t id declined_item InProgress)
          | _ => None
          end
      | CancelSignal id =>
          it ← items t !! id;
          match item_status it with
          | AwaitingApproval | Running => Some (set_item t id declined_item Interrupted)
          | _ => None
          end
      end
  | _ => None
  end.

Fixpoint run (t : Turn) (evs : list TurnEvent) : option Turn :=
  match evs with
  | [] => Some t
  | e :: rest => t' ← step t e; run t' rest
  end.

End TurnController.

Module WorkerSession.

(** What the controller reads back from the worker for one request. *)
Inductive RawResponse :=
| Message (exit_status : Z) (captured_output : string)
| FreeText (text : string)
| ErrorBeforeReply
| StreamClosed.

Definition parse_response (r : RawResponse) : option (Z * string) :=
  match r with
  | Message code out => Some (code, out)
  | _ => None
  end.

Inductive ControllerError := WorkerBusy | NoRequestInFlight.

(** [worker] is the live worker (by spawn number), if any. *)
Record Session := {
  worker : option nat;
  next_worker : nat;
  in_flight : option nat;
  session_turn : nat;
  session_items : gmap nat CommandExecutionItem;
}.

Inductive SessionEvent :=
| StartTurn
| Dispatch (item_id : nat)
| Respond (response : RawResponse).

Definition session_step (s : Session) (e : SessionEvent) : ControllerError + Session :=
  match e with
  | StartTurn =>
      match in_flight s with
      | Some _ => inl WorkerBusy
      | None =>
          inr {| worker := worker s; next_worker := next_worker s; in_flight := None;
                 session_turn := S (session_turn s); session_items := session_items s |}
      end
  | Dispatch id =>
      match in_flight s with
      | Some _ => inl WorkerBusy
      | None =>
          let '(w, next) :=
            match worker s with
            | Some w => (w, next_worker s)
            | None => (next_worker s, S (next_worker s))
            end in
          inr {| worker := Some w; next_worker := next; in_flight := Some id;
                 session_turn := session_turn s;
                 session_items := <[id := running_item]> (session_items s) |}
      end
  | Respond r =>
      match in_flight s with
      | None => inl NoRequestInFlight
      | Some id =>
          match parse_response r with
          | Some (code, out) =>
              inr {| worker := worker s; next_worker := next_worker s; in_flight := None;
                     session_turn := session_turn s;
                     session_items :=
                       <[id := {| item_status := Completed; exit_code := Some code;
                                  aggregated_output := Some out |}]> (session_items s) |}
          | None =>
              inr {| worker := None; next_worker := next_worker s; in_flight := None;
                     session_turn := session_turn s;
                     session_items := <[id := declined_item]> (session_items s) |}
          end
      end
  end.

End WorkerSession.

(* ------------------------------------------------------------------ *)
(** ** Lexical normalization *)

(** [std::path::Component] on Unix ([Component::Prefix] only occurs on
    Windows). *)
Inductive Component := RootDir | CurDir | ParentDir | Normal (name : string).

(** A [PathBuf] built by [push] and [pop]: whether it starts at the root,
    and its normal components. *)
Record LexPath := {
  lp_absolute : bool;
  lp_components : list string;
}.

(** [PathBuf::pop]: drops the last component; the root directory and the
    empty path have no parent and stay as they are. *)
Definition lexpath_pop (p : LexPath) : LexPath :=
  match lp_components p with
  | [] => p
  | _ :: _ =>
      {| lp_absolute := lp_absolute p; lp_components := removelast (lp_components p) |}
  end.

(** One iteration of the loop of [normalize_lexically]. *)
Definition normalize_lexically_step (normalized : LexPath) (component : Component) : LexPath :=
  match component with
  | CurDir => normalized
  | ParentDir => lexpath_pop normalized
  | RootDir => {| lp_absolute := true; lp_components := [] |}
  | Normal name =>
      {| lp_absolute := lp_absolute normalized;
         lp_components := lp_components normalized ++ [name] |}
  end.

Definition normalize_lexically (components : list Component) : LexPath :=
  fold_left normalize_lexically_step components
    {| lp_absolute := false; lp_components := [] |}.

(** [Path::components] of a normalized path. *)
Definition lexpath_components (p : LexPath) : list Component :=
  (if lp_absolute p then [RootDir] else []) ++ map Normal (lp_components p).

(* ------------------------------------------------------------------ *)
(** ** Command tokens *)

(** [str::contains] with a string pattern. *)
Fixpoint str_contains (needle hay : string) : bool :=
  match hay with
  | EmptyString => String.prefix needle hay
  | String _ rest => String.prefix needle hay || str_contains needle rest
  end.

(** [str::split_once] with a character separator. *)
Fixpoint split_once (sep : Ascii.ascii) (s : string) : option (string * string) :=
  match s with
  | EmptyString => None
  | String c rest =>
      if Ascii.eqb c sep then Some (EmptyString, rest)
      else
        match split_once sep rest with
        | Some (l, r) => Some (String c l, r)
        | None => None
        end
  end.

Definition is_path_like_token (token : string) : bool :=
  String.prefix "." token || String.prefix "~" token
  || str_contains "/" token || str_contains "\" token.

(** The candidates [add_token_path_candidates] pushes for one token (the
    caller passes a fresh vector per token). *)
Definition add_token_path_candidates (token : string) : list string :=
  let trimmed := str_trim token in
  if String.eqb trimmed "" || str_contains "://" trimmed then []
  else if String.prefix "-" trimmed then
    match split_once "=" trimmed with
    | Some (_, value) =>
        if negb (String.eqb (str_trim value) "") && negb (str_contains "://" value)
        then [value] else []
    | None => []
    end
  else if is_path_like_token trimmed then [trimmed]
  else [].

(** Pushes [p] unless the [seen] set already holds it. *)
Definition push_unique (acc : list PathBuf * gset PathBuf) (p : PathBuf)
  : list PathBuf * gset PathBuf :=
  if decide (p ∈ acc.2) then acc else (acc.1 ++ [p], {[p]} ∪ acc.2).

(** The [seen] set holds exactly the pushed paths. *)
Definition seen_inv (acc : list AbsolutePathBuf * gset AbsolutePathBuf) : Prop :=
  ∀ x, x ∈ acc.1 ↔ x ∈ acc.2.

(* ------------------------------------------------------------------ *)
(** ** macOS permission values *)





Section Environment.

(** The process environment and the filesystem: [dirs::home_dir()]. *)
Variable home_dir : option string.

Definition expand_home (path : string) : string :=
  if String.eqb path "~" then
    match home_dir with
    | Some home => home
    | None => path
    end
  else
    match strip_prefix "~/" path, home_dir with
    | Some rest, Some home => join_lossy home rest
    | _, _ => path
    end.

(** The filesystem part of [normalize_permission_path]: [PathBuf::from],
    the join onto the skill directory of a relative path,
    [normalize_lexically], [dunce::canonicalize] with its lexical fallback
    and [AbsolutePathBuf::from_absolute_path]. *)
Variable resolve_absolute_path : PathBuf -> string -> option AbsolutePathBuf.

(** [build_macos_seatbelt_profile_extensions]: target dependent ([None]
    off macOS). *)
Variable build_macos_seatbelt_profile_extensions :
  SkillManifestMacOsPermissions -> option MacOsSeatbeltProfileExtensions.

(** [normalize_runtime_absolute_path]: lexical normalization, then
    canonicalization with fallback, then the absoluteness check. *)
Variable normalize_runtime_absolute_path : PathBuf -> option PathBuf.

(** [collect_command_paths]: path-like tokens of the command and of its
    shell re-parses, resolved against the normalized cwd. *)
Variable collect_command_paths : list string -> PathBuf -> list PathBuf.

Definition normalize_permission_path (skill_dir : PathBuf) (value : string)
  : option AbsolutePathBuf :=
  let trimmed := str_trim value in
  if String.eqb trimmed "" then None
  else resolve_absolute_path skill_dir (expand_home trimmed).

Definition normalize_permission_paths (skill_dir : PathBuf) (values : list string)
  : list AbsolutePathBuf :=
  (fold_left (fun (acc : list AbsolutePathBuf * gset AbsolutePathBuf) value =>
     match normalize_permission_path skill_dir value with
     | None => acc
     | Some path =>
         if decide (path ∈ acc.2) then acc else (acc.1 ++ [path], {[path]} ∪ acc.2)
     end) values ([], ∅)).1.

Definition compile_permission_profile (skill_dir : PathBuf)
    (permissions : option SkillManifestPermissions) : option Permissions :=
  permissions ← permissions;
  let fs_read := normalize_permission_paths skill_dir (read (file_system permissions)) in
  let fs_write := normalize_permission_paths skill_dir (write (file_system permissions)) in
  let sandbox_policy :=
    match fs_write with
    | _ :: _ =>
        WorkspaceWrite fs_write
          (match fs_read with
           | [] => ReadOnlyAccess.FullAccess
           | _ :: _ => ReadOnlyAccess.Restricted true fs_read
           end)
          (manifest_network permissions) false false
    | [] =>
        match fs_read with
        | _ :: _ => ReadOnly (ReadOnlyAccess.Restricted true fs_read)
        | [] => new_read_only_policy
        end
    end in
  Some {| approval_policy := AskForApproval.Never;
          sandbox_policy := sandbox_policy;
          network := None;
          windows_sandbox_mode := None;
          macos_seatbelt_profile_extensions :=
            build_macos_seatbelt_profile_extensions (macos permissions) |}.

(** [Path]'s [Ord]: lexicographic over components. *)
Fixpoint path_compare (lhs rhs : list string) : comparison :=
  match lhs, rhs with
  | [], [] => Eq
  | [], _ :: _ => Lt
  | _ :: _, [] => Gt
  | l :: ls, r :: rs =>
      match String.compare l r with
      | Eq => path_compare ls rs
      | c => c
      end
  end.

(** [components().count()] of an absolute path counts the root as well. *)
Definition compare_path_specificity (lhs rhs : PathBuf) : comparison :=
  match Nat.compare (S (length lhs)) (S (length rhs)) with
  | Eq => path_compare lhs rhs
  | c => c
  end.

(** [Iterator::max_by]: [reduce] with [cmp::max_by], which keeps the later
    element unless the earlier one compares greater. *)
Definition max_by {A} (cmp : A -> A -> comparison) (l : list A) : option A :=
  match l with
  | [] => None
  | x :: xs => Some (fold_left (fun a b => match cmp a b with Gt => a | _ => b end) xs x)
  end.

Definition find_matching_skill_permission_profile (command : list string)
    (command_cwd : PathBuf) (skills : list SkillMetadata) (disabled_paths : gset PathBuf)
  : option MatchedSkillPermissionProfile :=
  normalized_command_cwd ← normalize_runtime_absolute_path command_cwd;
  let command_paths := collect_command_paths command normalized_command_cwd in
  max_by (fun l r => compare_path_specificity (matched_skill_dir l) (matched_skill_dir r))
    (omap (fun skill =>
       if decide (skill_path skill ∈ disabled_paths) then None
       else
         profile ← permission_profile skill;
         skill_dir ← path_parent (skill_path skill);
         normalized_skill_dir ← normalize_runtime_absolute_path skill_dir;
         let matches_cwd := path_starts_with normalized_command_cwd normalized_skill_dir in
         let matches_path :=
           existsb (fun p => path_starts_with p normalized_skill_dir) command_paths in
         if negb matches_cwd && negb matches_path then None
         else Some {| matched_profile := profile; matched_skill_dir := normalized_skill_dir |})
       skills).

Definition resolve_effective_command_permissions (command : list string)
    (command_cwd : PathBuf) (turn_approval_policy : AskForApproval.t)
    (turn_sandbox_policy : SandboxPolicy.t) (turn_sandbox_cwd : PathBuf)
    (turn_macos_seatbelt_profile_extensions : option MacOsSeatbeltProfileExtensions)
    (skills : list SkillMetadata) (disabled_paths : gset PathBuf)
  : EffectiveCommandPermissions :=
  let effective :=
    {| eff_approval_policy := turn_approval_policy;
       eff_sandbox_policy := turn_sandbox_policy;
       eff_sandbox_cwd := turn_sandbox_cwd;
       eff_macos_seatbelt_profile_extensions := turn_macos_seatbelt_profile_extensions |} in
  match find_matching_skill_permission_profile command command_cwd skills disabled_paths with
  | None => effective
  | Some matched_skill =>
      {| eff_approval_policy :=
           stricter_approval_policy (eff_approval_policy effective)
             (approval_policy (matched_profile matched_skill));
         eff_sandbox_policy :=
           merge_sandbox_policies (eff_sandbox_policy effective)
             (sandbox_policy (matched_profile matched_skill));
         eff_sandbox_cwd := matched_skill_dir matched_skill;
         eff_macos_seatbelt_profile_extensions :=
           match macos_seatbelt_profile_extensions (matched_profile matched_skill) with
           | Some extensions => Some extensions
           | None => eff_macos_seatbelt_profile_extensions effective
           end |}
  end.

(** [normalize_runtime_token_path]: [expand_home], [PathBuf::from], the
    join onto the command cwd of a relative path, then
    [normalize_runtime_absolute_path]. *)
Variable normalize_runtime_token_path : string -> PathBuf -> option PathBuf.

(** [crate::bash::parse_shell_lc_plain_commands] and
    [crate::bash::parse_shell_lc_single_command_prefix]. *)
Variable parse_shell_lc_plain_commands : list string -> option (list (list string)).
Variable parse_shell_lc_single_command_prefix : list string -> option (list string).

(** [collect_paths_from_tokens], threading [paths] and [seen]. *)
Definition collect_paths_from_tokens (tokens : list string) (command_cwd : PathBuf)
    (acc : list PathBuf * gset PathBuf) : list PathBuf * gset PathBuf :=
  fold_left (fun acc token =>
    fold_left (fun acc candidate =>
      match normalize_runtime_token_path candidate command_cwd with
      | Some path => push_unique acc path
      | None => acc
      end) (add_token_path_candidates token) acc) tokens acc.

(** The body of [collect_command_paths] (the matcher above takes it as the
    parameter of the same name). *)
Definition collect_command_paths_impl (command : list string) (command_cwd : PathBuf)
  : list PathBuf :=
  let acc := collect_paths_from_tokens command command_cwd ([], ∅) in
  let acc :=
    match parse_shell_lc_plain_commands command with
    | Some commands =>
        fold_left (fun acc parsed_command =>
          collect_paths_from_tokens parsed_command command_cwd acc) commands acc
    | None => acc
    end in
  let acc :=
    match parse_shell_lc_single_command_prefix command with
    | Some parsed_command => collect_paths_from_tokens parsed_command command_cwd acc
    | None => acc
    end in
  acc.1.

(** The skills that [find_matching_skill_permission_profile] considers
    for a command whose cwd normalizes to [cwd]: enabled, with a profile,
    and whose normalized directory contains the cwd or a command path. *)
Definition skill_candidate (command : list string) (cwd : PathBuf)
    (disabled_paths : gset PathBuf) (skill : SkillMetadata)
    (m : MatchedSkillPermissionProfile) : Prop :=
  (skill_path skill ∉ disabled_paths) ∧
  permission_profile skill = Some (matched_profile m) ∧
  (∃ skill_dir, path_parent (skill_path skill) = Some skill_dir ∧
     normalize_runtime_absolute_path skill_dir = Some (matched_skill_dir m)) ∧
  (path_starts_with cwd (matched_skill_dir m) = true ∨
   ∃ p, p ∈ collect_command_paths command cwd ∧ path_starts_with p (matched_skill_dir m) = true).

(* ------------------------------------------------------------------ *)
(** ** Lemmas on deduplicating pushes *)

Lemma push_unique_spec acc p :
  NoDup acc.1 → seen_inv acc →
  NoDup (push_unique acc p).1 ∧ seen_inv (push_unique acc p) ∧
  ∀ x, x ∈ (push_unique acc p).1 ↔ x ∈ acc.1 ∨ x = p.
Proof using.
  intros Hnd Hinv. unfold push_unique. case_decide as Hp.
  - split; [done|]. split; [done|]. intros x. split; [by left|].
    intros [Hx| ->]; [done|]. by apply Hinv.
  - simpl. split; [|split].
    + apply NoDup_app. split; [done|]. split; [|apply NoDup_singleton].
      intros x Hx Hx'. apply list_elem_of_singleton in Hx' as ->. apply Hp, Hinv, Hx.
    + intros x. simpl. rewrite elem_of_app, elem_of_union, list_elem_of_singleton,
        elem_of_singleton. rewrite (Hinv x). split; intros [H|H]; auto.
    + intros x. rewrite elem_of_app, list_elem_of_singleton. done.
Qed.

Lemma fold_push_spec {A} (g : A → option PathBuf) (xs : list A) acc :
  NoDup acc.1 → seen_inv acc →
  let res := fold_left (fun acc a => match g a with Some p => push_unique acc p | None => acc end)
               xs acc in
  NoDup res.1 ∧ seen_inv res ∧ ∀ x, x ∈ res.1 ↔ x ∈ acc.1 ∨ ∃ a, a ∈ xs ∧ g a = Some x.
Proof using.
  revert acc. induction xs as [|a xs IH]; intros acc Hnd Hinv; simpl.
  - split; [done|]. split; [done|]. intros x. split; [by left|].
    intros [H|(a & Ha & _)]; [done|]. by apply elem_of_nil in Ha.
  - assert (NoDup (match g a with Some p => push_unique acc p | None => acc end).1 ∧
            seen_inv (match g a with Some p => push_unique acc p | None => acc end) ∧
            ∀ x, x ∈ (match g a with Some p => push_unique acc p | None => acc end).1 ↔
                 x ∈ acc.1 ∨ g a = Some x) as (Hnd' & Hinv' & Hx').
    { destruct (g a) as [p|].
      - destruct (push_unique_spec acc p Hnd Hinv) as (Hnd1 & Hinv1 & Hx).
        split; [done|]. split; [done|]. intros x. rewrite Hx.
        split; intros [H|H]; [by left | right; by subst | by left | right; congruence].
      - split; [done|]. split; [done|]. intros x.
        split; [by left | intros [H|H]; [done | discriminate]]. }
    destruct (IH _ Hnd' Hinv') as (Hnd'' & Hinv'' & Hx). split; [done|]. split; [done|].
    intros x. rewrite Hx, Hx'. setoid_rewrite elem_of_cons. split.
    + intros [[H|H]|(b & Hb & H)]; [by left | right; exists a; auto | right; exists b; auto].
    + intros [H|(b & [->|Hb] & H)]; [left; by left | left; by right | right; eauto].
Qed.

(* ------------------------------------------------------------------ *)
(** ** Lemmas on the compiler and the resolver *)

Lemma fold_max_by_elem {A} (cmp : A → A → comparison) (ys : list A) acc :
  fold_left (fun a b => match cmp a b with Gt => a | _ => b end) ys acc ∈ acc :: ys.
Proof.
  revert acc. induction ys as [|z zs IH]; intros acc; simpl; [set_solver|].
  specialize (IH (match cmp acc z with Gt => acc | _ => z end)).
  apply elem_of_cons in IH as [->|H].
  - destruct (cmp acc z); set_solver.
  - set_solver.
Qed.

Lemma max_by_elem {A} (cmp : A → A → comparison) (l : list A) x :
  max_by cmp l = Some x → x ∈ l.
Proof. destruct l as [|y ys]; simpl; [done|]. intros [= <-]. apply fold_max_by_elem. Qed.

(** The matched profile is the profile of one of the skills, and that
    skill is neither disabled nor without a profile. *)
Lemma find_matching_skill_permission_profile_elem command command_cwd skills disabled_paths m :
  find_matching_skill_permission_profile command command_cwd skills disabled_paths = Some m →
  ∃ skill, skill ∈ skills ∧ (skill_path skill ∉ disabled_paths) ∧
           permission_profile skill = Some (matched_profile m).
Proof.
  unfold find_matching_skill_permission_profile.
  destruct (normalize_runtime_absolute_path command_cwd) as [cwd|]; simpl; [|done].
  intros H. apply max_by_elem, list_elem_of_omap in H as (skill & Hskill & Hf).
  exists skill. split; [done|].
  case_decide as Hd; [done|]. split; [done|].
  destruct (permission_profile skill) as [p|]; simpl in Hf; [|done].
  destruct (path_parent (skill_path skill)); simpl in Hf; [|done].
  destruct (normalize_runtime_absolute_path _); simpl in Hf; [|done].
  destruct (negb _ && negb _); simplify_eq. done.
Qed.

Lemma find_matching_skill_permission_profile_none command command_cwd skills disabled_paths :
  Forall (fun skill => skill_path skill ∈ disabled_paths ∨ permission_profile skill = None)
    skills →
  find_matching_skill_permission_profile command command_cwd skills disabled_paths = None.
Proof.
  intros Hall.
  destruct (find_matching_skill_permission_profile command command_cwd skills disabled_paths)
    as [m|] eqn:E; [|done].
  apply find_matching_skill_permission_profile_elem in E as (skill & Hs & Hd & Hp).
  rewrite Forall_forall in Hall. destruct (Hall skill Hs) as [H|H]; [done|congruence].
Qed.

Lemma approval_policy_rank_inj a b : approval_policy_rank a = approval_policy_rank b → a = b.
Proof. destruct a, b; simpl; congruence. Qed.

Lemma strip_prefix_none_iff pre s : strip_prefix pre s = None ↔ String.prefix pre s = false.
Proof.
  revert s. induction pre as [|c pre IH]; intros [|d s]; simpl; try done.
  destruct (Ascii.eqb_spec c d) as [->|Hne].
  - destruct (Ascii.ascii_dec d d); [apply IH | done].
  - destruct (Ascii.ascii_dec c d); done.
Qed.

(* ------------------------------------------------------------------ *)
(** ** Lemmas on the orders of the matcher *)

Lemma ascii_compare_refl a : Ascii.compare a a = Eq.
Proof. unfold Ascii.compare. apply N.compare_refl. Qed.

Lemma ascii_compare_lt_trans a b c :
  Ascii.compare a b = Lt → Ascii.compare b c = Lt → Ascii.compare a c = Lt.
Proof. unfold Ascii.compare. rewrite !N.compare_lt_iff. lia. Qed.

Lemma string_compare_refl s : String.compare s s = Eq.
Proof. induction s as [|a s IH]; simpl; [done|]. by rewrite ascii_compare_refl. Qed.

Lemma string_compare_lt_trans s1 s2 s3 :
  String.compare s1 s2 = Lt → String.compare s2 s3 = Lt → String.compare s1 s3 = Lt.
Proof.
  revert s2 s3. induction s1 as [|a s1 IH]; intros [|b s2] [|c s3]; simpl; try done.
  destruct (Ascii.compare a b) eqn:Eab; try done;
    destruct (Ascii.compare b c) eqn:Ebc; try done; intros H1 H2.
  - apply Ascii.compare_eq_iff in Eab, Ebc. subst. rewrite ascii_compare_refl. eauto.
  - apply Ascii.compare_eq_iff in Eab. subst. by rewrite Ebc.
  - apply Ascii.compare_eq_iff in Ebc. subst. by rewrite Eab.
  - by rewrite (ascii_compare_lt_trans _ _ _ Eab Ebc).
Qed.

Lemma path_compare_eq lhs rhs : path_compare lhs rhs = Eq → lhs = rhs.
Proof.
  revert rhs. induction lhs as [|l lhs IH]; intros [|r rhs]; simpl; try done.
  destruct (String.compare l r) eqn:E; try done.
  apply String.compare_eq_iff in E. intros H. subst. f_equal. auto.
Qed.

Lemma path_compare_antisym lhs rhs : path_compare lhs rhs = CompOpp (path_compare rhs lhs).
Proof.
  revert rhs. induction lhs as [|l lhs IH]; intros [|r rhs]; simpl; try done.
  rewrite String.compare_antisym. by destruct (String.compare r l); simpl; auto.
Qed.

Lemma path_compare_lt_trans p1 p2 p3 :
  path_compare p1 p2 = Lt → path_compare p2 p3 = Lt → path_compare p1 p3 = Lt.
Proof.
  revert p2 p3. induction p1 as [|a p1 IH]; intros [|b p2] [|c p3]; simpl; try done.
  destruct (String.compare a b) eqn:Eab; try done;
    destruct (String.compare b c) eqn:Ebc; try done; intros H1 H2.
  - apply String.compare_eq_iff in Eab, Ebc. subst.
    rewrite string_compare_refl. eauto.
  - apply String.compare_eq_iff in Eab. subst. by rewrite Ebc.
  - apply String.compare_eq_iff in Ebc. subst. by rewrite Eab.
  - by rewrite (string_compare_lt_trans _ _ _ Eab Ebc).
Qed.

Lemma compare_path_specificity_eq lhs rhs :
  compare_path_specificity lhs rhs = Eq → lhs = rhs.
Proof.
  unfold compare_path_specificity.
  destruct (Nat.compare _ _) eqn:E; try done. apply path_compare_eq.
Qed.

Lemma compare_path_specificity_antisym lhs rhs :
  compare_path_specificity lhs rhs = CompOpp (compare_path_specificity rhs lhs).
Proof.
  unfold compare_path_specificity. rewrite Nat.compare_antisym.
  destruct (Nat.compare (S (length rhs)) (S (length lhs))); simpl; auto using path_compare_antisym.
Qed.

Lemma compare_path_specificity_lt_trans p1 p2 p3 :
  compare_path_specificity p1 p2 = Lt → compare_path_specificity p2 p3 = Lt →
  compare_path_specificity p1 p3 = Lt.
Proof.
  unfold compare_path_specificity.
  destruct (Nat.compare_spec (S (length p1)) (S (length p2)));
    destruct (Nat.compare_spec (S (length p2)) (S (length p3))); try done;
    destruct (Nat.compare_spec (S (length p1)) (S (length p3))); try done; try lia.
  apply path_compare_lt_trans.
Qed.

Lemma compare_path_specificity_le_trans p1 p2 p3 :
  compare_path_specificity p1 p2 ≠ Gt → compare_path_specificity p2 p3 ≠ Gt →
  compare_path_specificity p1 p3 ≠ Gt.
Proof.
  intros H12 H23. destruct (compare_path_specificity p1 p2) eqn:E12; try done.
  - apply compare_path_specificity_eq in E12. by subst.
  - destruct (compare_path_specificity p2 p3) eqn:E23; try done.
    + apply compare_path_specificity_eq in E23. subst. by rewrite E12.
    + by rewrite (compare_path_specificity_lt_trans _ _ _ E12 E23).
Qed.

Lemma compare_path_specificity_length lhs rhs :
  compare_path_specificity lhs rhs ≠ Gt → length lhs ≤ length rhs.
Proof.
  unfold compare_path_specificity.
  destruct (Nat.compare_spec (S (length lhs)) (S (length rhs))); intros Hc; try done; lia.
Qed.

(** [max_by] returns an element no other element compares greater than,
    for a comparison that is antisymmetric and transitive. *)
Lemma fold_max_by_max {A} (cmp : A → A → comparison)
    (Hanti : ∀ a b, cmp a b = CompOpp (cmp b a))
    (Htrans : ∀ a b c, cmp a b ≠ Gt → cmp b c ≠ Gt → cmp a c ≠ Gt) ys acc :
  let r := fold_left (fun a b => match cmp a b with Gt => a | _ => b end) ys acc in
  cmp acc r ≠ Gt ∧ ∀ y, y ∈ ys → cmp y r ≠ Gt.
Proof.
  assert (Hrefl : ∀ a, cmp a a ≠ Gt).
  { intros a E. pose proof (Hanti a a) as H. rewrite E in H. discriminate. }
  revert acc. induction ys as [|z zs IH]; intros acc; simpl.
  - split; [apply Hrefl|]. intros y Hy. by apply elem_of_nil in Hy.
  - destruct (IH (match cmp acc z with Gt => acc | _ => z end)) as [Hacc Hys].
    assert (cmp acc (match cmp acc z with Gt => acc | _ => z end) ≠ Gt ∧
            cmp z (match cmp acc z with Gt => acc | _ => z end) ≠ Gt) as [H1 H2].
    { destruct (cmp acc z) eqn:E; split; auto; try congruence.
      rewrite Hanti, E. discriminate. }
    split; [eauto|]. intros y [->|Hy]%elem_of_cons; eauto.
Qed.

Lemma max_by_max (l : list MatchedSkillPermissionProfile) m :
  let cmp l r := compare_path_specificity (matched_skill_dir l) (matched_skill_dir r) in
  max_by cmp l = Some m → ∀ y, y ∈ l → cmp y m ≠ Gt.
Proof.
  intros cmp. destruct l as [|x xs]; simpl; [done|]. intros [= <-] y Hy.
  destruct (fold_max_by_max cmp (fun a b => compare_path_specificity_antisym _ _)
              (fun a b c => compare_path_specificity_le_trans _ _ _) xs x) as [Hx Hxs].
  apply elem_of_cons in Hy as [->|Hy]; auto.
Qed.

Lemma max_by_some {A} (cmp : A → A → comparison) l x : x ∈ l → ∃ y, max_by cmp l = Some y.
Proof. destruct l; simpl; [by intros ?%elem_of_nil|eauto]. Qed.

(* ------------------------------------------------------------------ *)
(** ** Lemmas on the matcher *)

(** The matcher takes the most specific of the [skill_candidate]s. *)
Lemma find_matching_skill_permission_profile_candidates command command_cwd skills
    disabled_paths cwd :
  normalize_runtime_absolute_path command_cwd = Some cwd →
  ∃ ms, find_matching_skill_permission_profile command command_cwd skills disabled_paths =
          max_by (fun l r => compare_path_specificity (matched_skill_dir l) (matched_skill_dir r))
            ms ∧
        ∀ m, m ∈ ms ↔ ∃ skill, skill ∈ skills ∧ skill_candidate command cwd disabled_paths skill m.
Proof.
  intros Hcwd. unfold find_matching_skill_permission_profile. rewrite Hcwd. simpl.
  eexists. split; [reflexivity|]. intros m. rewrite list_elem_of_omap.
  split; intros (skill & Hs & H); exists skill; split; auto.
  - case_decide as Hd; [done|].
    destruct (permission_profile skill) as [profile|] eqn:Ep; simpl in H; [|done].
    destruct (path_parent (skill_path skill)) as [dir|] eqn:Epar; simpl in H; [|done].
    destruct (normalize_runtime_absolute_path dir) as [ndir|] eqn:En; simpl in H; [|done].
    destruct (negb _ && negb _) eqn:Ec; [done|]. injection H as <-.
    repeat split; simpl; eauto.
    apply andb_false_iff in Ec as [Ec|Ec]; apply negb_false_iff in Ec; [by left|right].
    apply existsb_exists in Ec as (p & Hp & Ep'). exists p. by rewrite list_elem_of_In.
  - destruct H as (Hd & Hp & (dir & Hpar & Hn) & Hmatch).
    rewrite decide_False by done. rewrite Hp. simpl. rewrite Hpar. simpl. rewrite Hn. simpl.
    destruct Hmatch as [Hc|(p & Hp' & Hs')].
    + rewrite Hc. simpl. by destruct m.
    + assert (existsb (fun q => path_starts_with q (matched_skill_dir m))
                (collect_command_paths command cwd) = true) as ->.
      { apply existsb_exists. exists p. by rewrite <- list_elem_of_In. }
      rewrite andb_false_r. simpl. by destruct m.
Qed.

(** [merge_sandbox_policies]: the network and write-access parts. *)
Lemma merge_sandbox_policies_network lhs rhs :
  has_full_network_access (merge_sandbox_policies lhs rhs) =
  has_full_network_access lhs && has_full_network_access rhs.
Proof. destruct lhs as [|[]|? ? [] ? ?|?], rhs as [|[]|? ? [] ? ?|?]; reflexivity. Qed.

Lemma merge_sandbox_policies_write_rank lhs rhs :
  write_access_kind_rank (write_access_kind (merge_sandbox_policies lhs rhs)) =
  Nat.max (write_access_kind_rank (write_access_kind lhs))
          (write_access_kind_rank (write_access_kind rhs)).
Proof. destruct lhs as [|[]|? ? [] ? ?|?], rhs as [|[]|? ? [] ? ?|?]; reflexivity. Qed.

Lemma merge_sandbox_policies_danger_l p : merge_sandbox_policies DangerFullAccess p = p.
Proof. destruct p as [|[]|w a [] t s|a]; reflexivity. Qed.

Lemma stricter_approval_policy_rank lhs rhs :
  approval_policy_rank (stricter_approval_policy lhs rhs) =
  Nat.max (approval_policy_rank lhs) (approval_policy_rank rhs).
Proof.
  unfold stricter_approval_policy.
  destruct (Nat.leb_spec (approval_policy_rank rhs) (approval_policy_rank lhs)); lia.
Qed.

(* ------------------------------------------------------------------ *)
(** ** Lemmas on the command paths *)

Lemma collect_paths_from_tokens_spec tokens command_cwd acc :
  NoDup acc.1 → seen_inv acc →
  let res := collect_paths_from_tokens tokens command_cwd acc in
  NoDup res.1 ∧ seen_inv res ∧
  ∀ x, x ∈ res.1 ↔ x ∈ acc.1 ∨
    ∃ token candidate, token ∈ tokens ∧ candidate ∈ add_token_path_candidates token ∧
      normalize_runtime_token_path candidate command_cwd = Some x.
Proof using normalize_runtime_token_path.
  unfold collect_paths_from_tokens. revert acc.
  induction tokens as [|t ts IH]; intros acc Hnd Hinv; simpl.
  - split; [done|]. split; [done|]. intros x. split; [by left|].
    intros [H|(t & c & Ht & _)]; [done|]. by apply elem_of_nil in Ht.
  - destruct (fold_push_spec (fun c => normalize_runtime_token_path c command_cwd)
                (add_token_path_candidates t) acc Hnd Hinv) as (Hnd' & Hinv' & Hx').
    destruct (IH _ Hnd' Hinv') as (Hnd'' & Hinv'' & Hx). split; [done|]. split; [done|].
    intros x. rewrite Hx, Hx'. setoid_rewrite elem_of_cons. split.
    + intros [[H|(c & Hc & H)]|(t' & c & Ht' & Hc & H)];
        [by left | right; exists t, c; auto | right; exists t', c; auto].
    + intros [H|(t' & c & [->|Ht'] & Hc & H)]; [left; by left | left; right; eauto | right; eauto 10].
Qed.

Lemma collect_paths_from_commands_spec commands command_cwd acc :
  NoDup acc.1 → seen_inv acc →
  let res := fold_left (fun acc parsed_command =>
               collect_paths_from_tokens parsed_command command_cwd acc) commands acc in
  NoDup res.1 ∧ seen_inv res ∧
  ∀ x, x ∈ res.1 ↔ x ∈ acc.1 ∨
    ∃ tokens token candidate, tokens ∈ commands ∧ token ∈ tokens ∧
      candidate ∈ add_token_path_candidates token ∧
      normalize_runtime_token_path candidate command_cwd = Some x.
Proof using normalize_runtime_token_path.
  revert acc. induction commands as [|c cs IH]; intros acc Hnd Hinv; simpl.
  - split; [done|]. split; [done|]. intros x. split; [by left|].
    intros [H|(ts & t & c & Hts & _)]; [done|]. by apply elem_of_nil in Hts.
  - destruct (collect_paths_from_tokens_spec c command_cwd acc Hnd Hinv)
      as (Hnd' & Hinv' & Hx').
    destruct (IH _ Hnd' Hinv') as (Hnd'' & Hinv'' & Hx). split; [done|]. split; [done|].
    intros x. rewrite Hx, Hx'. setoid_rewrite elem_of_cons. split.
    + intros [[H|(t & d & Ht & Hd & H)]|(ts & t & d & Hts & Ht & Hd & H)];
        [by left | right; exists c, t, d; auto | right; exists ts, t, d; auto].
    + intros [H|(ts & t & d & [->|Hts] & Ht & Hd & H)];
        [left; by left | left; right; eauto | right; eauto 10].
Qed.

(* ------------------------------------------------------------------ *)
(** ** Claims on the compiler and the resolver *)

(** Claim C2: without a manifest the compiler returns no profile. With a
    manifest, writing [fs_read] and [fs_write] for the normalized read and
    write entries: when [fs_write] is non-empty the policy is
    [WorkspaceWrite] over [fs_write], reading everything when [fs_read] is
    empty and restricted to [fs_read] (with the platform defaults)
    otherwise, with the manifest's network flag and both tmp exclusions off;
    when only [fs_read] is non-empty it is [ReadOnly] restricted to
    [fs_read]; when both are empty it is the default read-only policy. *)
Theorem compile_permission_profile_sandbox_policy (skill_dir : PathBuf)
    (permissions : SkillManifestPermissions) :
  compile_permission_profile skill_dir None = None ∧
  let fs_read := normalize_permission_paths skill_dir (read (file_system permissions)) in
  let fs_write := normalize_permission_paths skill_dir (write (file_system permissions)) in
  ∃ profile, compile_permission_profile skill_dir (Some permissions) = Some profile ∧
    (fs_write ≠ [] →
       sandbox_policy profile =
         WorkspaceWrite fs_write
           (if decide (fs_read = []) then ReadOnlyAccess.FullAccess
            else ReadOnlyAccess.Restricted true fs_read)
           (manifest_network permissions) false false) ∧
    (fs_write = [] → fs_read ≠ [] →
       sandbox_policy profile = ReadOnly (ReadOnlyAccess.Restricted true fs_read)) ∧
    (fs_write = [] → fs_read = [] → sandbox_policy profile = new_read_only_policy).
Proof.
  split; [done|]. simpl.
  eexists. split; [reflexivity|]. simpl.
  destruct (normalize_permission_paths skill_dir (write (file_system permissions))) as [|w ws];
    destruct (normalize_permission_paths skill_dir (read (file_system permissions))) as [|r rs];
    repeat split; intros; try congruence.
Qed.

(** Claim C3: every compiled profile has approval policy [Never]; the
    approval selection returns one of its two arguments, the one of higher
    rank (OnFailure 0 < OnRequest 1 < UnlessTrusted 2 < Never 3); hence,
    when every skill profile is a compiled one, a command matched to a skill
    gets approval policy [Never] whatever the turn's approval policy. *)
Theorem approval_policy_never_for_matched_skill :
  (∀ skill_dir manifest profile,
     compile_permission_profile skill_dir (Some manifest) = Some profile →
     approval_policy profile = AskForApproval.Never) ∧
  (∀ lhs rhs,
     approval_policy_rank (stricter_approval_policy lhs rhs) =
       Nat.max (approval_policy_rank lhs) (approval_policy_rank rhs) ∧
     (stricter_approval_policy lhs rhs = lhs ∨ stricter_approval_policy lhs rhs = rhs)) ∧
  (∀ command command_cwd turn_approval_policy turn_sandbox_policy turn_sandbox_cwd
     turn_extensions skills disabled_paths,
     Forall (fun skill => ∀ p, permission_profile skill = Some p →
       ∃ skill_dir manifest, compile_permission_profile skill_dir (Some manifest) = Some p)
       skills →
     find_matching_skill_permission_profile command command_cwd skills disabled_paths ≠ None →
     eff_approval_policy
       (resolve_effective_command_permissions command command_cwd turn_approval_policy
          turn_sandbox_policy turn_sandbox_cwd turn_extensions skills disabled_paths)
     = AskForApproval.Never).
Proof.
  split; [|split].
  - intros skill_dir manifest profile H. injection H as <-. reflexivity.
  - intros lhs rhs. unfold stricter_approval_policy.
    destruct (Nat.leb_spec (approval_policy_rank rhs) (approval_policy_rank lhs));
      split; auto; lia.
  - intros command command_cwd tap tsp tcwd text skills disabled Hall Hfind.
    unfold resolve_effective_command_permissions.
    destruct (find_matching_skill_permission_profile command command_cwd skills disabled)
      as [m|] eqn:E; [|done].
    apply find_matching_skill_permission_profile_elem in E as (skill & Hs & _ & Hp).
    rewrite Forall_forall in Hall.
    destruct (Hall skill Hs _ Hp) as (dir & manifest & Hc).
    injection Hc as Hc. simpl. rewrite <- Hc. simpl.
    unfold stricter_approval_policy. destruct tap; reflexivity.
Qed.

(** Claim C4: when no skill matches the command (in particular when every
    skill is disabled or has no compiled profile) the resolver returns the
    turn's approval policy, sandbox policy, sandbox cwd and platform
    extensions unchanged. *)
Theorem resolve_effective_command_permissions_no_match command command_cwd
    turn_approval_policy turn_sandbox_policy turn_sandbox_cwd turn_extensions
    skills disabled_paths :
  find_matching_skill_permission_profile command command_cwd skills disabled_paths = None ∨
  Forall (fun skill => skill_path skill ∈ disabled_paths ∨ permission_profile skill = None)
    skills →
  resolve_effective_command_permissions command command_cwd turn_approval_policy
    turn_sandbox_policy turn_sandbox_cwd turn_extensions skills disabled_paths =
  {| eff_approval_policy := turn_approval_policy;
     eff_sandbox_policy := turn_sandbox_policy;
     eff_sandbox_cwd := turn_sandbox_cwd;
     eff_macos_seatbelt_profile_extensions := turn_extensions |}.
Proof.
  intros H. unfold resolve_effective_command_permissions.
  assert (find_matching_skill_permission_profile command command_cwd skills disabled_paths
          = None) as ->; [|done].
  destruct H as [H|H]; [done|]. by apply find_matching_skill_permission_profile_none.
Qed.

(** Claim C9: [expand_home] returns its input unchanged when the input is
    neither ["~"] nor starts with ["~/"] (so ["~user/..."] is never
    expanded), and also for every input when no home directory is
    available. *)
Theorem expand_home_unchanged (path : string) :
  (path ≠ "~"%string ∧ String.prefix "~/" path = false) ∨ home_dir = None →
  expand_home path = path.
Proof.
  unfold expand_home. intros [[Hne Hpre]|Hnone].
  - destruct (String.eqb_spec path "~"); [done|].
    apply strip_prefix_none_iff in Hpre. rewrite Hpre. done.
  - rewrite Hnone. destruct (String.eqb path "~"); [done|].
    by destruct (strip_prefix "~/" path).
Qed.

(** Claim C10: when every write entry of the manifest normalizes away (or
    there is none), the compiled policy is a [ReadOnly] policy and grants no
    network, whatever the manifest's network flag. *)
Theorem compile_permission_profile_network_needs_write skill_dir permissions profile :
  normalize_permission_paths skill_dir (write (file_system permissions)) = [] →
  compile_permission_profile skill_dir (Some permissions) = Some profile →
  (∃ access, sandbox_policy profile = ReadOnly access) ∧
  has_full_network_access (sandbox_policy profile) = false.
Proof.
  intros Hw Hc. injection Hc as <-. simpl. rewrite Hw.
  destruct (normalize_permission_paths skill_dir (read (file_system permissions)));
    simpl; eauto.
Qed.

(* ------------------------------------------------------------------ *)
(** ** Further properties of the compiler, the matcher and the resolver *)

Lemma seen_inv_empty : seen_inv ([], ∅).
Proof. intros y. simpl. split; intros H; [by apply elem_of_nil in H | set_solver]. Qed.

Lemma drop_whitespace_all cs :
  Forall (fun c => is_ascii_whitespace c = true) cs → drop_whitespace cs = [].
Proof. induction 1 as [|c cs Hc _ IH]; simpl; [done|]. by rewrite Hc. Qed.

(** [normalize_permission_paths] keeps each normalized entry once: its
    result has no duplicates, and holds a path exactly when some entry of
    the manifest normalizes to it. *)
Theorem normalize_permission_paths_spec skill_dir values :
  NoDup (normalize_permission_paths skill_dir values) ∧
  ∀ x, x ∈ normalize_permission_paths skill_dir values ↔
       ∃ value, value ∈ values ∧ normalize_permission_path skill_dir value = Some x.
Proof.
  destruct (fold_push_spec (normalize_permission_path skill_dir) values ([], ∅))
    as (Hnd & _ & Hx); [apply NoDup_nil_2 | apply seen_inv_empty |].
  split; [exact Hnd|]. intros x. etransitivity; [apply Hx|]. simpl.
  rewrite elem_of_nil. split; [by intros [[]|H] | by right].
Qed.

(** An entry made only of whitespace is dropped by
    [normalize_permission_path], before any expansion or filesystem
    access. *)
Theorem normalize_permission_path_blank skill_dir value :
  Forall (fun c => is_ascii_whitespace c = true) (list_ascii_of_string value) →
  normalize_permission_path skill_dir value = None.
Proof.
  intros H. unfold normalize_permission_path, str_trim.
  rewrite (drop_whitespace_all _ H). reflexivity.
Qed.


(** The matched profile is the one of the most specific candidate: the
    command cwd normalizes, some enabled skill with a profile whose
    normalized directory contains the cwd or a command path yields it, and
    no other such candidate has a deeper directory, or the same depth and a
    greater one in [Path] order. *)
Theorem find_matching_skill_permission_profile_most_specific command command_cwd skills
    disabled_paths m :
  find_matching_skill_permission_profile command command_cwd skills disabled_paths = Some m →
  ∃ cwd, normalize_runtime_absolute_path command_cwd = Some cwd ∧
    (∃ skill, skill ∈ skills ∧ skill_candidate command cwd disabled_paths skill m) ∧
    ∀ skill m', skill ∈ skills → skill_candidate command cwd disabled_paths skill m' →
      length (matched_skill_dir m') ≤ length (matched_skill_dir m) ∧
      compare_path_specificity (matched_skill_dir m') (matched_skill_dir m) ≠ Gt.
Proof.
  destruct (normalize_runtime_absolute_path command_cwd) as [cwd|] eqn:Ecwd.
  2: { unfold find_matching_skill_permission_profile. rewrite Ecwd. discriminate. }
  destruct (find_matching_skill_permission_profile_candidates command command_cwd skills
              disabled_paths cwd Ecwd) as (ms & -> & Hms).
  intros Hm. exists cwd. split; [done|]. split.
  - apply Hms. by apply max_by_elem in Hm.
  - intros skill m' Hs Hc.
    assert (Hgt : compare_path_specificity (matched_skill_dir m') (matched_skill_dir m) ≠ Gt).
    { apply (max_by_max ms m Hm). apply Hms. eauto. }
    split; [by apply compare_path_specificity_length|done].
Qed.

(** Some profile matches as soon as the command cwd normalizes and one
    skill is a candidate. *)
Theorem find_matching_skill_permission_profile_complete command command_cwd skills
    disabled_paths cwd skill m :
  normalize_runtime_absolute_path command_cwd = Some cwd →
  skill ∈ skills → skill_candidate command cwd disabled_paths skill m →
  ∃ m', find_matching_skill_permission_profile command command_cwd skills disabled_paths
        = Some m'.
Proof.
  intros Ecwd Hs Hc.
  destruct (find_matching_skill_permission_profile_candidates command command_cwd skills
              disabled_paths cwd Ecwd) as (ms & -> & Hms).
  apply (max_by_some _ _ m). apply Hms. eauto.
Qed.

(** Under a turn with full access, a matched skill's profile is applied
    as it is: the effective sandbox policy is the skill's policy and the
    sandbox cwd is the skill's directory. *)
Theorem resolve_effective_command_permissions_danger_turn command command_cwd
    turn_approval_policy turn_sandbox_cwd turn_extensions skills disabled_paths m :
  find_matching_skill_permission_profile command command_cwd skills disabled_paths = Some m →
  let effective :=
    resolve_effective_command_permissions command command_cwd turn_approval_policy
      DangerFullAccess turn_sandbox_cwd turn_extensions skills disabled_paths in
  eff_sandbox_policy effective = sandbox_policy (matched_profile m) ∧
  eff_sandbox_cwd effective = matched_skill_dir m.
Proof.
  intros Hm. unfold resolve_effective_command_permissions. rewrite Hm. simpl.
  split; [apply merge_sandbox_policies_danger_l | done].
Qed.

(** The resolver never loosens the turn: the effective policy grants full
    network access only if the turn's does, its write access is at most
    the turn's (rank at least the turn's), and its approval policy ranks at
    least as high as the turn's. *)
Theorem resolve_effective_command_permissions_never_loosens command command_cwd
    turn_approval_policy turn_sandbox_policy turn_sandbox_cwd turn_extensions skills
    disabled_paths :
  let effective :=
    resolve_effective_command_permissions command command_cwd turn_approval_policy
      turn_sandbox_policy turn_sandbox_cwd turn_extensions skills disabled_paths in
  (has_full_network_access (eff_sandbox_policy effective) = true →
   has_full_network_access turn_sandbox_policy = true) ∧
  write_access_kind_rank (write_access_kind turn_sandbox_policy) ≤
    write_access_kind_rank (write_access_kind (eff_sandbox_policy effective)) ∧
  approval_policy_rank turn_approval_policy ≤
    approval_policy_rank (eff_approval_policy effective).
Proof.
  unfold resolve_effective_command_permissions.
  destruct (find_matching_skill_permission_profile command command_cwd skills disabled_paths)
    as [m|]; simpl; [|auto].
  rewrite merge_sandbox_policies_network, merge_sandbox_policies_write_rank,
    stricter_approval_policy_rank.
  split; [intros H; apply andb_prop in H as [H _]; exact H | lia].
Qed.

(** [collect_command_paths] returns each path once, and holds a path
    exactly when it is the normalization of a candidate of a token of the
    command itself, of one of its plain shell commands, or of its
    single-command prefix. *)
Theorem collect_command_paths_impl_spec command command_cwd :
  NoDup (collect_command_paths_impl command command_cwd) ∧
  ∀ x, x ∈ collect_command_paths_impl command command_cwd ↔
    ∃ tokens token candidate,
      (tokens = command ∨
       (∃ commands, parse_shell_lc_plain_commands command = Some commands ∧ tokens ∈ commands) ∨
       parse_shell_lc_single_command_prefix command = Some tokens) ∧
      token ∈ tokens ∧ candidate ∈ add_token_path_candidates token ∧
      normalize_runtime_token_path candidate command_cwd = Some x.
Proof.
  unfold collect_command_paths_impl. cbv zeta.
  destruct (collect_paths_from_tokens_spec command command_cwd ([], ∅))
    as (Hnd1 & Hinv1 & Hx1); [apply NoDup_nil_2 | apply seen_inv_empty |].
  destruct (parse_shell_lc_plain_commands command) as [commands|] eqn:Ep.
  - destruct (collect_paths_from_commands_spec commands command_cwd _ Hnd1 Hinv1)
      as (Hnd2 & Hinv2 & Hx2).
    destruct (parse_shell_lc_single_command_prefix command) as [prefix|] eqn:Epr.
    + destruct (collect_paths_from_tokens_spec prefix command_cwd _ Hnd2 Hinv2)
        as (Hnd3 & _ & Hx3).
      split; [done|]. intros x. rewrite Hx3, Hx2, Hx1. simpl. rewrite elem_of_nil. split.
      * intros [[[[]|(t & c & Ht & Hc & Hn)]|(ts & t & c & Hts & Ht & Hc & Hn)]
                |(t & c & Ht & Hc & Hn)].
        -- exists command, t, c. split; [by left | auto].
        -- exists ts, t, c. split; [right; left; eauto | auto].
        -- exists prefix, t, c. split; [by right; right | auto].
      * intros (ts & t & c & [->|[(cs & [= <-] & Hts)|[= <-]]] & Ht & Hc & Hn).
        -- left; left; right. eauto.
        -- left; right. eauto 10.
        -- right. eauto.
    + split; [done|]. intros x. rewrite Hx2, Hx1. simpl. rewrite elem_of_nil. split.
      * intros [[[]|(t & c & Ht & Hc & Hn)]|(ts & t & c & Hts & Ht & Hc & Hn)].
        -- exists command, t, c. split; [by left | auto].
        -- exists ts, t, c. split; [right; left; eauto | auto].
      * intros (ts & t & c & [->|[(cs & [= <-] & Hts)|[=]]] & Ht & Hc & Hn).
        -- left; right. eauto.
        -- right. eauto 10.
  - destruct (parse_shell_lc_single_command_prefix command) as [prefix|] eqn:Epr.
    + destruct (collect_paths_from_tokens_spec prefix command_cwd _ Hnd1 Hinv1)
        as (Hnd3 & _ & Hx3).
      split; [done|]. intros x. rewrite Hx3, Hx1. simpl. rewrite elem_of_nil. split.
      * intros [[[]|(t & c & Ht & Hc & Hn)]|(t & c & Ht & Hc & Hn)].
        -- exists command, t, c. split; [by left | auto].
        -- exists prefix, t, c. split; [by right; right | auto].
      * intros (ts & t & c & [->|[(cs & [=] & Hts)|[= <-]]] & Ht & Hc & Hn).
        -- left; right. eauto.
        -- right. eauto.
    + split; [done|]. intros x. rewrite Hx1. simpl. rewrite elem_of_nil. split.
      * intros [[]|(t & c & Ht & Hc & Hn)]. exists command, t, c. split; [by left | auto].
      * intros (ts & t & c & [->|[(cs & [=] & Hts)|[=]]] & Ht & Hc & Hn). right. eauto.
Qed.

End Environment.

(* ------------------------------------------------------------------ *)
(** ** Lemmas on paths *)

Lemma path_starts_with_refl p : path_starts_with p p = true.
Proof. induction p as [|c p IH]; simpl; [done|]. rewrite String.eqb_refl. done. Qed.

Lemma path_starts_with_antisym p q :
  path_starts_with p q = true → path_starts_with q p = true → p = q.
Proof.
  revert q. induction p as [|c p IH]; intros [|d q]; simpl; try done.
  intros H1 H2. apply andb_prop in H1 as [H1 H1'].
  apply String.eqb_eq in H1. subst. f_equal. apply IH; [done|].
  apply andb_prop in H2. tauto.
Qed.

Lemma path_starts_with_trans p q r :
  path_starts_with p q = true → path_starts_with q r = true → path_starts_with p r = true.
Proof.
  revert p q. induction r as [|c r IH]; intros [|a p] [|b q]; simpl; try done.
  intros H1 H2. apply andb_prop in H1 as [H1 H1']. apply andb_prop in H2 as [H2 H2'].
  apply String.eqb_eq in H1, H2. subst. rewrite String.eqb_refl. simpl. eauto.
Qed.

Lemma root_candidate_some l r x :
  root_candidate l r = Some x →
  (x = l ∧ path_starts_with l r = true) ∨ (x = r ∧ path_starts_with r l = true).
Proof.
  unfold root_candidate.
  destruct (path_starts_with l r) eqn:E1; [intros [= <-]; by left|].
  destruct (path_starts_with r l) eqn:E2; [intros [= <-]; by right|done].
Qed.

(* ------------------------------------------------------------------ *)
(** ** Lemmas on the root intersection *)

Lemma intersect_step_spec acc c :
  seen_inv acc →
  seen_inv (intersect_step acc c) ∧
  ∀ x, x ∈ (intersect_step acc c).1 ↔ x ∈ acc.1 ∨ c = Some x.
Proof.
  intros Hinv. unfold intersect_step. destruct c as [c|].
  - case_decide as Hc.
    + split; [done|]. intros x. split; [tauto|].
      intros [Hx|[= <-]]; [done|]. by apply Hinv.
    + split.
      * intros x. simpl. rewrite elem_of_app, elem_of_union, list_elem_of_singleton,
          elem_of_singleton. specialize (Hinv x). tauto.
      * intros x. simpl. rewrite elem_of_app, list_elem_of_singleton.
        split; intros [H|H]; auto; [right; by subst | inversion H; by right].
  - split; [done|]. intros x. split; [tauto|]. by intros [H|H].
Qed.

Lemma intersect_inner_spec left rhs acc :
  seen_inv acc →
  let res := fold_left (fun acc right => intersect_step acc (root_candidate left right)) rhs acc in
  seen_inv res ∧
  ∀ x, x ∈ res.1 ↔ x ∈ acc.1 ∨ ∃ r, r ∈ rhs ∧ root_candidate left r = Some x.
Proof.
  revert acc. induction rhs as [|r rhs IH]; intros acc Hinv; simpl.
  - split; [done|]. intros x. split; [tauto|]. intros [H|(r & Hr & _)]; [done|].
    by apply elem_of_nil in Hr.
  - destruct (intersect_step_spec acc (root_candidate left r) Hinv) as [Hinv' Hx'].
    destruct (IH _ Hinv') as [Hres Hx]. split; [done|].
    intros x. rewrite Hx, Hx'. setoid_rewrite elem_of_cons. split.
    + intros [[H|H]|(r' & Hr' & H)]; eauto.
    + intros [H|(r' & [->|Hr'] & H)]; eauto.
Qed.

Lemma intersect_outer_spec lhs rhs acc :
  seen_inv acc →
  let res := fold_left (fun acc left =>
     fold_left (fun acc right => intersect_step acc (root_candidate left right)) rhs acc)
     lhs acc in
  seen_inv res ∧
  ∀ x, x ∈ res.1 ↔ x ∈ acc.1 ∨
    ∃ l r, l ∈ lhs ∧ r ∈ rhs ∧ root_candidate l r = Some x.
Proof.
  revert acc. induction lhs as [|l lhs IH]; intros acc Hinv; simpl.
  - split; [done|]. intros x. split; [tauto|].
    intros [H|(l & r & Hl & _)]; [done|]. by apply elem_of_nil in Hl.
  - destruct (intersect_inner_spec l rhs acc Hinv) as [Hinv' Hx'].
    destruct (IH _ Hinv') as [Hres Hx]. split; [done|].
    intros x. rewrite Hx, Hx'. setoid_rewrite elem_of_cons. split.
    + intros [[H|(r & Hr & H)]|(l' & r & Hl' & Hr & H)]; eauto 10.
    + intros [H|(l' & r & [->|Hl'] & Hr & H)]; eauto 10.
Qed.

Lemma elem_of_intersect_absolute_roots lhs rhs x :
  x ∈ intersect_absolute_roots lhs rhs ↔
  ∃ l r, l ∈ lhs ∧ r ∈ rhs ∧ root_candidate l r = Some x.
Proof.
  unfold intersect_absolute_roots.
  destruct (intersect_outer_spec lhs rhs ([], ∅)) as [_ Hx].
  { intros y. simpl. split; intros H; [by apply elem_of_nil in H | set_solver]. }
  rewrite Hx. simpl. split; [intros [H|H]; [by apply elem_of_nil in H|done] | by right].
Qed.

(** The kept roots: a root of one side lying at or below a root of the
    other side. *)
Lemma elem_of_intersect_absolute_roots_iff lhs rhs x :
  x ∈ intersect_absolute_roots lhs rhs ↔
  (x ∈ lhs ∧ ∃ r, r ∈ rhs ∧ path_starts_with x r = true) ∨
  (x ∈ rhs ∧ ∃ l, l ∈ lhs ∧ path_starts_with x l = true).
Proof.
  rewrite elem_of_intersect_absolute_roots. split.
  - intros (l & r & Hl & Hr & H).
    destruct (root_candidate_some _ _ _ H) as [[-> E]|[-> E]]; eauto 10.
  - intros [(Hx & r & Hr & E)|(Hx & l & Hl & E)].
    + exists x, r. unfold root_candidate. rewrite E. auto.
    + exists l, x. repeat split; [done|done|]. unfold root_candidate.
      destruct (path_starts_with l x) eqn:E'; [|by rewrite E].
      f_equal. by apply path_starts_with_antisym.
Qed.

Lemma intersect_absolute_roots_comm lhs rhs :
  roots_equiv (intersect_absolute_roots lhs rhs) (intersect_absolute_roots rhs lhs).
Proof. intros x. rewrite !elem_of_intersect_absolute_roots_iff. tauto. Qed.

Lemma intersect_absolute_roots_self roots :
  roots_equiv (intersect_absolute_roots roots roots) roots.
Proof.
  intros x. rewrite elem_of_intersect_absolute_roots_iff. split.
  - intros [[H _]|[H _]]; done.
  - intros H. left. split; [done|]. exists x. split; [done|]. apply path_starts_with_refl.
Qed.

(* ------------------------------------------------------------------ *)
(** ** Lemmas on the merge *)

Lemma roots_equiv_refl l : roots_equiv l l.
Proof. done. Qed.

Lemma read_access_equiv_refl a : read_access_equiv a a.
Proof. destruct a; simpl; auto using roots_equiv_refl. Qed.

Lemma merge_read_only_access_full_r a :
  merge_read_only_access a ReadOnlyAccess.FullAccess = a.
Proof. by destruct a. Qed.

Lemma read_access_for_policy_merge lhs rhs :
  read_access_for_policy (merge_sandbox_policies lhs rhs) =
  merge_read_only_access (read_access_for_policy lhs) (read_access_for_policy rhs).
Proof.
  destruct lhs as [|[]|? ? [] ? ?|?], rhs as [|[]|? ? [] ? ?|?]; reflexivity.
Qed.

Lemma merge_read_only_access_comm a b :
  read_access_equiv (merge_read_only_access a b) (merge_read_only_access b a).
Proof.
  destruct a as [|d1 r1], b as [|d2 r2]; simpl; auto using roots_equiv_refl.
  split; [apply andb_comm | apply intersect_absolute_roots_comm].
Qed.

Lemma merge_read_only_access_self a :
  read_access_equiv (merge_read_only_access a a) a.
Proof.
  destruct a as [|d r]; simpl; [done|].
  split; [by destruct d | apply intersect_absolute_roots_self].
Qed.

Lemma merge_read_only_access_roots a b x :
  x ∈ access_roots (merge_read_only_access a b) →
  (x ∈ access_roots a ∨ x ∈ access_roots b) ∧ access_covers a x ∧ access_covers b x.
Proof.
  destruct a as [|d1 r1], b as [|d2 r2]; simpl.
  - intros H. by apply elem_of_nil in H.
  - intros H. repeat split; auto. exists x. auto using path_starts_with_refl.
  - intros H. repeat split; auto. exists x. auto using path_starts_with_refl.
  - rewrite elem_of_intersect_absolute_roots_iff.
    intros [(Hx & r & Hr & E)|(Hx & l & Hl & E)].
    + repeat split; eauto using path_starts_with_refl.
    + repeat split; eauto using path_starts_with_refl.
Qed.

Lemma readable_roots_of_merge lhs rhs :
  readable_roots_of (merge_sandbox_policies lhs rhs) =
  access_roots (merge_read_only_access (read_access_for_policy lhs) (read_access_for_policy rhs)).
Proof. unfold readable_roots_of. by rewrite read_access_for_policy_merge. Qed.

(** Claim C1: [merge_sandbox_policies] is a meet. The merged policy has
    full network access exactly when both inputs have it; its write-access
    rank is the maximum of the two input ranks; every readable root of the
    merged policy is a readable root of one input and lies at or below a
    readable root of each input (or that input reads everything); every
    writable root is a writable root of one input and lies at or below a
    writable root of each input (or that input writes everything). *)
Theorem merge_sandbox_policies_is_meet (lhs rhs : SandboxPolicy.t) :
  has_full_network_access (merge_sandbox_policies lhs rhs) =
    has_full_network_access lhs && has_full_network_access rhs ∧
  write_access_kind_rank (write_access_kind (merge_sandbox_policies lhs rhs)) =
    Nat.max (write_access_kind_rank (write_access_kind lhs))
            (write_access_kind_rank (write_access_kind rhs)) ∧
  (∀ x, x ∈ readable_roots_of (merge_sandbox_policies lhs rhs) →
        (x ∈ readable_roots_of lhs ∨ x ∈ readable_roots_of rhs) ∧
        read_covers lhs x ∧ read_covers rhs x) ∧
  (∀ x, x ∈ writable_roots_of (merge_sandbox_policies lhs rhs) →
        (x ∈ writable_roots_of lhs ∨ x ∈ writable_roots_of rhs) ∧
        write_covers lhs x ∧ write_covers rhs x).
Proof.
  split; [|split; [|split]].
  - destruct lhs as [|[]|? ? [] ? ?|?], rhs as [|[]|? ? [] ? ?|?]; reflexivity.
  - destruct lhs as [|[]|? ? [] ? ?|?], rhs as [|[]|? ? [] ? ?|?]; reflexivity.
  - intros x. rewrite readable_roots_of_merge. apply merge_read_only_access_roots.
  - intros x.
    destruct lhs as [|[]|w1 a1 n1 t1 s1|a1], rhs as [|[]|w2 a2 n2 t2 s2|a2];
      simpl; try (intros H; by apply elem_of_nil in H);
      try (intros H; repeat split; eauto using path_starts_with_refl; fail).
    rewrite elem_of_intersect_absolute_roots_iff.
    intros [(Hx & r & Hr & E)|(Hx & l & Hl & E)];
      repeat split; eauto using path_starts_with_refl.
Qed.

(** Claim C5 (as amended): merging a policy with itself gives back the
    same variant, network setting and flags, and root lists holding the
    same roots as the input's (order and duplicates aside). *)
Theorem merge_sandbox_policies_self (p : SandboxPolicy.t) :
  policy_equiv (merge_sandbox_policies p p) p.
Proof.
  destruct p as [|[]|w a n t s|a]; simpl; auto.
  - split; [apply intersect_absolute_roots_self|].
    split; [apply merge_read_only_access_self|].
    by destruct n, t, s.
  - apply merge_read_only_access_self.
Qed.

(** Claim C5, counterexample: with the readable roots [/a], [/c], [/a/b]
    the merge of a read-only policy with itself lists the roots in the
    order [/a], [/a/b], [/c], a different [Vec], so the result is not equal
    to the input. *)
Lemma merge_sandbox_policies_self_not_identity :
  let p := ReadOnly (ReadOnlyAccess.Restricted true [["a"]; ["c"]; ["a"; "b"]]) in
  merge_sandbox_policies p p = ReadOnly (ReadOnlyAccess.Restricted true [["a"]; ["a"; "b"]; ["c"]]) ∧
  merge_sandbox_policies p p ≠ p.
Proof. vm_compute. split; [reflexivity | discriminate]. Qed.

(** Claim C6: [merge_sandbox_policies lhs rhs] and
    [merge_sandbox_policies rhs lhs] grant the same network access, have the
    same write-access kind, and are the same policy up to the order of their
    root lists: same variant, same flags, same readable and writable root
    sets. *)
Theorem merge_sandbox_policies_comm (lhs rhs : SandboxPolicy.t) :
  has_full_network_access (merge_sandbox_policies lhs rhs) =
    has_full_network_access (merge_sandbox_policies rhs lhs) ∧
  write_access_kind (merge_sandbox_policies lhs rhs) =
    write_access_kind (merge_sandbox_policies rhs lhs) ∧
  policy_equiv (merge_sandbox_policies lhs rhs) (merge_sandbox_policies rhs lhs).
Proof.
  split; [|split].
  - destruct lhs as [|[]|? ? [] ? ?|?], rhs as [|[]|? ? [] ? ?|?]; reflexivity.
  - destruct lhs as [|[]|? ? [] ? ?|?], rhs as [|[]|? ? [] ? ?|?]; reflexivity.
  - destruct lhs as [|[]|w1 a1 n1 t1 s1|a1], rhs as [|[]|w2 a2 n2 t2 s2|a2];
      simpl; auto using merge_read_only_access_comm;
      repeat match goal with |- _ ∧ _ => split end;
      rewrite ?merge_read_only_access_full_r;
      auto using intersect_absolute_roots_comm, merge_read_only_access_comm,
        read_access_equiv_refl, roots_equiv_refl, andb_comm, orb_comm;
      repeat match goal with b : bool |- _ => destruct b end; reflexivity.
Qed.

(* ------------------------------------------------------------------ *)
(** ** Turn controller *)

Lemma turn_step_status t e t' :
  TurnController.step t e = Some t' →
  TurnController.turn_status t = InProgress ∧
  (TurnController.turn_status t' = Interrupted ↔ TurnController.is_cancellation e = true).
Proof.
  intros Hstep. unfold TurnController.step in Hstep.
  destruct (TurnController.turn_status t) eqn:Ht; [|done|done].
  split; [done|].
  destruct e as [id b|id d|id code out|id|id|]; simpl in Hstep;
    try (destruct (TurnController.items t !! id) as [it|]; simpl in Hstep; [|done]);
    repeat case_match; simplify_eq; simpl; done.
Qed.

(** Claim C7: a [Cancel] decision on a command awaiting approval in a live
    turn declines that command (no exit code, no output) and interrupts the
    turn; and along any run of a live turn, the turn ends up [Interrupted]
    exactly when one of the applied events resolved an item by
    cancellation. *)
Theorem turn_cancel_interrupts :
  (∀ t id it,
     TurnController.turn_status t = InProgress →
     TurnController.items t !! id = Some it →
     item_status it = AwaitingApproval →
     ∃ t', TurnController.step t (TurnController.Decision id Cancel) = Some t' ∧
           TurnController.items t' !! id = Some declined_item ∧
           TurnController.turn_status t' = Interrupted) ∧
  (∀ t evs t',
     TurnController.turn_status t = InProgress →
     TurnController.run t evs = Some t' →
     (TurnController.turn_status t' = Interrupted ↔
      Exists (fun e => TurnController.is_cancellation e = true) evs)).
Proof.
  split.
  - intros t id it Ht Hid Hst. unfold TurnController.step. rewrite Ht, Hid. simpl.
    rewrite Hst. eexists. split; [reflexivity|]. simpl.
    split; [apply lookup_insert_eq | done].
  - intros t evs. revert t. induction evs as [|e rest IH]; intros t t' Ht Hrun; simpl in Hrun.
    + injection Hrun as <-. rewrite Ht. split; [done|]. intros H. inversion H.
    + destruct (TurnController.step t e) as [t1|] eqn:Hstep; simpl in Hrun; [|done].
      destruct (turn_step_status _ _ _ Hstep) as [_ Hint].
      destruct rest as [|e2 rest'].
      * simpl in Hrun. injection Hrun as <-. rewrite Hint.
        split; [intros H; by constructor|]. intros H. inversion H; [done|].
        match goal with H' : Exists _ [] |- _ => inversion H' end.
      * simpl in Hrun.
        destruct (TurnController.step t1 e2) as [t2|] eqn:Hstep2; simpl in Hrun; [|done].
        destruct (turn_step_status _ _ _ Hstep2) as [Ht1 _].
        assert (TurnController.is_cancellation e = false) as Hne.
        { destruct (TurnController.is_cancellation e); [|done].
          assert (TurnController.turn_status t1 = Interrupted) by (by apply Hint).
          congruence. }
        assert (TurnController.run t1 (e2 :: rest') = Some t') as Hrun1.
        { simpl. rewrite Hstep2. done. }
        rewrite (IH t1 t' Ht1 Hrun1). split.
        -- intros H. by right.
        -- intros H. inversion H; [congruence|done].
Qed.

(* ------------------------------------------------------------------ *)
(** ** Worker sidecar *)

(** Claim C8: when the response to the in-flight command does not parse as
    a protocol message, the controller does not fail: the command resolves
    [Declined] with no exit code and no output, the worker is dropped and
    nothing is left in flight; in a later turn of the same session the next
    dispatched command spawns a fresh worker, and a well-formed reply from it
    completes that command with its exit status and output. *)
Theorem worker_fault_declines_and_recovers :
  ∀ s id raw,
    WorkerSession.in_flight s = Some id →
    WorkerSession.parse_response raw = None →
    ∃ s1, WorkerSession.session_step s (WorkerSession.Respond raw) = inr s1 ∧
      WorkerSession.session_items s1 !! id = Some declined_item ∧
      WorkerSession.worker s1 = None ∧ WorkerSession.in_flight s1 = None ∧
      ∀ id2 code out, ∃ s2 s3 s4,
        WorkerSession.session_step s1 WorkerSession.StartTurn = inr s2 ∧
        WorkerSession.session_turn s2 = S (WorkerSession.session_turn s) ∧
        WorkerSession.session_step s2 (WorkerSession.Dispatch id2) = inr s3 ∧
        WorkerSession.worker s3 = Some (WorkerSession.next_worker s) ∧
        WorkerSession.next_worker s3 = S (WorkerSession.next_worker s) ∧
        WorkerSession.session_step s3
          (WorkerSession.Respond (WorkerSession.Message code out)) = inr s4 ∧
        WorkerSession.session_items s4 !! id2 =
          Some {| item_status := Completed; exit_code := Some code;
                  aggregated_output := Some out |}.
Proof.
  intros s id raw Hin Hparse.
  unfold WorkerSession.session_step at 1. rewrite Hin, Hparse.
  eexists. split; [reflexivity|]. simpl.
  split; [apply lookup_insert_eq|]. split; [done|]. split; [done|].
  intros id2 code out. do 3 eexists. split; [reflexivity|]. simpl.
  split; [done|]. split; [reflexivity|]. simpl.
  split; [done|]. split; [done|]. split; [reflexivity|]. simpl.
  apply lookup_insert_eq.
Qed.

(* ------------------------------------------------------------------ *)
(** ** Witnesses at concrete inputs *)

(** C4 at the spec's scenario: the skill of /repo/skills/demo is disabled;
    the command [/bin/echo hello] run in that directory keeps the turn's
    [OnRequest] approval, full-access sandbox and cwd. *)
Lemma resolve_effective_command_permissions_no_match_witness :
  let skill :=
    {| skill_name := "demo"; skill_path := ["repo"; "skills"; "demo"; "SKILL.md"];
       permission_profile :=
         Some {| approval_policy := AskForApproval.Never;
                 sandbox_policy := new_read_only_policy;
                 network := None; windows_sandbox_mode := None;
                 macos_seatbelt_profile_extensions := None |} |} in
  let disabled : gset PathBuf := {[ ["repo"; "skills"; "demo"; "SKILL.md"] ]} in
  (find_matching_skill_permission_profile Some (fun _ _ => [])
     ["/bin/echo"; "hello"] ["repo"; "skills"; "demo"] [skill] disabled = None ∨
   Forall (fun s => skill_path s ∈ disabled ∨ permission_profile s = None) [skill]) ∧
  resolve_effective_command_permissions Some (fun _ _ => [])
    ["/bin/echo"; "hello"] ["repo"; "skills"; "demo"] AskForApproval.OnRequest
    DangerFullAccess ["repo"] None [skill] disabled =
  {| eff_approval_policy := AskForApproval.OnRequest;
     eff_sandbox_policy := DangerFullAccess;
     eff_sandbox_cwd := ["repo"];
     eff_macos_seatbelt_profile_extensions := None |}.
Proof.
  simpl.
  assert (Forall (fun s => skill_path s ∈ ({[ ["repo"; "skills"; "demo"; "SKILL.md"] ]} : gset PathBuf)
                        ∨ permission_profile s = None)
    [{| skill_name := "demo"; skill_path := ["repo"; "skills"; "demo"; "SKILL.md"];
        permission_profile :=
          Some {| approval_policy := AskForApproval.Never;
                  sandbox_policy := new_read_only_policy;
                  network := None; windows_sandbox_mode := None;
                  macos_seatbelt_profile_extensions := None |} |}]) as Hall.
  { constructor; [left; simpl; set_solver | constructor]. }
  split; [by right|].
  apply (resolve_effective_command_permissions_no_match Some (fun _ _ => [])).
  by right.
Defined.

(** C9 at ["~user/notes"] with a home directory available. *)
Lemma expand_home_unchanged_witness :
  (("~user/notes"%string ≠ "~"%string ∧ String.prefix "~/" "~user/notes" = false) ∨
   Some "/home/u"%string = None) ∧
  expand_home (Some "/home/u") "~user/notes" = "~user/notes"%string.
Proof.
  split; [left; split; [discriminate | reflexivity]|].
  apply (expand_home_unchanged (Some "/home/u") "~user/notes").
  left; split; [discriminate | reflexivity].
Defined.

(** C10 at a manifest with [network = true], [read = ["data"]] and no write
    entry, the entries resolved below the skill directory. *)
Lemma compile_permission_profile_network_needs_write_witness :
  let manifest :=
    {| manifest_network := true;
       file_system := {| read := ["data"]; write := [] |};
       macos := {| preferences := None; automations := None;
                   accessibility := false; calendar := false |} |} in
  let profile :=
    {| approval_policy := AskForApproval.Never;
       sandbox_policy := ReadOnly (ReadOnlyAccess.Restricted true [["skill"; "data"]]);
       network := None; windows_sandbox_mode := None;
       macos_seatbelt_profile_extensions := None |} in
  normalize_permission_paths None (fun dir s => Some (dir ++ [s])) ["skill"]
    (write (file_system manifest)) = [] ∧
  compile_permission_profile None (fun dir s => Some (dir ++ [s])) (fun _ => None) ["skill"]
    (Some manifest) = Some profile ∧
  (∃ access, sandbox_policy profile = ReadOnly access) ∧
  has_full_network_access (sandbox_policy profile) = false.
Proof.
  cbv zeta. split; [reflexivity|]. split; [vm_compute; reflexivity|].
  apply (compile_permission_profile_network_needs_write None (fun dir s => Some (dir ++ [s]))
           (fun _ => None) ["skill"]
           {| manifest_network := true;
              file_system := {| read := ["data"]; write := [] |};
              macos := {| preferences := None; automations := None;
                          accessibility := false; calendar := false |} |}).
  - reflexivity.
  - vm_compute. reflexivity.
Defined.

(** C8 at a session whose worker answers [this-is-not-json] to item 7. *)
Lemma worker_fault_declines_and_recovers_witness :
  let s := {| WorkerSession.worker := Some 0; WorkerSession.next_worker := 1;
              WorkerSession.in_flight := Some 7; WorkerSession.session_turn := 0;
              WorkerSession.session_items := {[7 := running_item]} |} in
  let raw := WorkerSession.FreeText "this-is-not-json" in
  WorkerSession.in_flight s = Some 7 ∧ WorkerSession.parse_response raw = None ∧
  ∃ s1, WorkerSession.session_step s (WorkerSession.Respond raw) = inr s1 ∧
    WorkerSession.session_items s1 !! 7 = Some declined_item ∧
    WorkerSession.worker s1 = None ∧ WorkerSession.in_flight s1 = None ∧
    ∀ id2 code out, ∃ s2 s3 s4,
      WorkerSession.session_step s1 WorkerSession.StartTurn = inr s2 ∧
      WorkerSession.session_turn s2 = S (WorkerSession.session_turn s) ∧
      WorkerSession.session_step s2 (WorkerSession.Dispatch id2) = inr s3 ∧
      WorkerSession.worker s3 = Some (WorkerSession.next_worker s) ∧
      WorkerSession.next_worker s3 = S (WorkerSession.next_worker s) ∧
      WorkerSession.session_step s3
        (WorkerSession.Respond (WorkerSession.Message code out)) = inr s4 ∧
      WorkerSession.session_items s4 !! id2 =
        Some {| item_status := Completed; exit_code := Some code;
                aggregated_output := Some out |}.
Proof.
  split; [reflexivity|]. split; [reflexivity|].
  apply worker_fault_declines_and_recovers; reflexivity.
Defined.

(* ------------------------------------------------------------------ *)
(** ** Examples *)


Example intersect_nested : intersect_absolute_roots [["a"]] [["a"; "b"]] = [["a"; "b"]].
Proof. vm_compute. reflexivity. Qed.
Example intersect_disjoint : intersect_absolute_roots [["a"]] [["c"]] = [].
Proof. vm_compute. reflexivity. Qed.
Example intersect_self_order :
  intersect_absolute_roots [["a"]; ["c"]; ["a"; "b"]] [["a"]; ["c"]; ["a"; "b"]] = [["a"]; ["a"; "b"]; ["c"]].
Proof. vm_compute. reflexivity. Qed.

(* ------------------------------------------------------------------ *)
(** ** Further properties of the root intersection and the merge *)

Lemma path_starts_with_comparable x p q :
  path_starts_with x p = true → path_starts_with x q = true →
  path_starts_with p q = true ∨ path_starts_with q p = true.
Proof.
  revert x q. induction p as [|a p IH]; intros x q Hp Hq; [destruct q; auto|].
  destruct q as [|b q]; [by left|]. destruct x as [|c x]; [done|]. simpl in *.
  apply andb_prop in Hp as [Hp Hp']. apply andb_prop in Hq as [Hq Hq'].
  apply String.eqb_eq in Hp, Hq. subst. rewrite String.eqb_refl. simpl. eauto.
Qed.

Lemma elem_of_intersect_absolute_roots_covers lhs rhs x :
  x ∈ intersect_absolute_roots lhs rhs ↔
  (x ∈ lhs ∨ x ∈ rhs) ∧
  (∃ r, r ∈ lhs ∧ path_starts_with x r = true) ∧
  (∃ r, r ∈ rhs ∧ path_starts_with x r = true).
Proof.
  rewrite elem_of_intersect_absolute_roots_iff. split.
  - intros [(Hx & Hr)|(Hx & Hl)]; repeat split; eauto using path_starts_with_refl.
  - intros [[Hx|Hx] [Hl Hr]]; [left|right]; eauto.
Qed.

Lemma intersect_absolute_roots_covers lhs rhs x :
  (∃ r, r ∈ intersect_absolute_roots lhs rhs ∧ path_starts_with x r = true) ↔
  (∃ r, r ∈ lhs ∧ path_starts_with x r = true) ∧
  (∃ r, r ∈ rhs ∧ path_starts_with x r = true).
Proof.
  split.
  - intros (r & Hr & Hxr).
    apply elem_of_intersect_absolute_roots_covers in Hr as (_ & (l & Hl & Hrl) & (q & Hq & Hrq)).
    split; eauto using path_starts_with_trans.
  - intros [(l & Hl & Hxl) (r & Hr & Hxr)].
    destruct (path_starts_with_comparable x l r Hxl Hxr) as [H|H].
    + exists l. split; [|done]. apply elem_of_intersect_absolute_roots_covers.
      split; [by left|]. split; [exists l | exists r]; auto using path_starts_with_refl.
    + exists r. split; [|done]. apply elem_of_intersect_absolute_roots_covers.
      split; [by right|]. split; [exists l | exists r]; auto using path_starts_with_refl.
Qed.

Lemma intersect_absolute_roots_assoc a b c :
  roots_equiv (intersect_absolute_roots (intersect_absolute_roots a b) c)
              (intersect_absolute_roots a (intersect_absolute_roots b c)).
Proof.
  intros x. rewrite !elem_of_intersect_absolute_roots_covers, !intersect_absolute_roots_covers.
  tauto.
Qed.

Lemma merge_read_only_access_assoc a b c :
  read_access_equiv (merge_read_only_access (merge_read_only_access a b) c)
                    (merge_read_only_access a (merge_read_only_access b c)).
Proof.
  destruct a as [|d1 r1], b as [|d2 r2], c as [|d3 r3]; simpl;
    repeat match goal with |- _ ∧ _ => split end;
    auto using roots_equiv_refl, intersect_absolute_roots_assoc;
    repeat match goal with b : bool |- _ => destruct b end; reflexivity.
Qed.


Lemma intersect_absolute_roots_nodup_outer lhs rhs acc :
  NoDup acc.1 → seen_inv acc →
  NoDup (fold_left (fun acc left =>
     fold_left (fun acc right => intersect_step acc (root_candidate left right)) rhs acc)
     lhs acc).1.
Proof.
  revert acc. induction lhs as [|l lhs IH]; intros acc Hnd Hinv; simpl; [done|].
  destruct (fold_push_spec (root_candidate l) rhs acc Hnd Hinv) as (Hnd' & Hinv' & _).
  by apply IH.
Qed.

(** [intersect_absolute_roots] lists each kept root once: its result has
    no duplicates, even when its inputs have some. *)
Theorem intersect_absolute_roots_nodup lhs rhs :
  NoDup (intersect_absolute_roots lhs rhs).
Proof.
  apply intersect_absolute_roots_nodup_outer; [apply NoDup_nil_2 | apply seen_inv_empty].
Qed.


(** The merge is associative up to the order of root lists: merging
    three policies in either grouping gives the same variant, flags and
    root sets. *)
Theorem merge_sandbox_policies_assoc a b c :
  policy_equiv (merge_sandbox_policies (merge_sandbox_policies a b) c)
               (merge_sandbox_policies a (merge_sandbox_policies b c)).
Proof.
  destruct a as [|[]|w1 a1 n1 t1 s1|a1], b as [|[]|w2 a2 n2 t2 s2|a2],
    c as [|[]|w3 a3 n3 t3 s3|a3]; simpl;
    rewrite ?merge_read_only_access_full_r;
    repeat match goal with |- _ ∧ _ => split end;
    auto using merge_read_only_access_assoc, intersect_absolute_roots_assoc,
      read_access_equiv_refl, roots_equiv_refl;
    repeat match goal with b : bool |- _ => destruct b end; reflexivity.
Qed.

(** [DangerFullAccess] is a neutral element of the merge, on both sides
    and exactly (not only up to root order). *)
Theorem merge_sandbox_policies_danger_neutral p :
  merge_sandbox_policies DangerFullAccess p = p ∧
  merge_sandbox_policies p DangerFullAccess = p.
Proof.
  destruct p as [|[]|w a [] [] []|a]; split; unfold merge_sandbox_policies; simpl;
    rewrite ?merge_read_only_access_full_r; reflexivity.
Qed.

(** The approval selection takes the policy of the higher rank, so the
    order in which policies are combined does not matter. *)
Theorem stricter_approval_policy_comm_assoc a b c :
  stricter_approval_policy a b = stricter_approval_policy b a ∧
  stricter_approval_policy (stricter_approval_policy a b) c =
    stricter_approval_policy a (stricter_approval_policy b c).
Proof.
  split; apply approval_policy_rank_inj; rewrite ?stricter_approval_policy_rank; lia.
Qed.

(* ------------------------------------------------------------------ *)
(** ** Properties of lexical normalization *)

Lemma normalize_lexically_app cs1 cs2 :
  normalize_lexically (cs1 ++ cs2) = fold_left normalize_lexically_step cs2 (normalize_lexically cs1).
Proof. unfold normalize_lexically. by rewrite fold_left_app. Qed.

Lemma normalize_lexically_step_normals names acc :
  fold_left normalize_lexically_step (map Normal names) acc =
  {| lp_absolute := lp_absolute acc; lp_components := lp_components acc ++ names |}.
Proof.
  revert acc. induction names as [|n names IH]; intros [a comps]; simpl.
  - by rewrite app_nil_r.
  - rewrite IH. simpl. by rewrite <- app_assoc.
Qed.

Lemma normalize_lexically_pop_push acc name :
  normalize_lexically_step (normalize_lexically_step acc (Normal name)) ParentDir = acc.
Proof.
  destruct acc as [a comps]. unfold normalize_lexically_step, lexpath_pop.
  cbn [lp_components lp_absolute].
  destruct (comps ++ [name]) as [|x l] eqn:E; [by destruct comps|].
  rewrite <- E, removelast_last. done.
Qed.

(** Lexical normalization is idempotent: normalizing the components of a
    normalized path gives back the same path. *)
Theorem normalize_lexically_idempotent components :
  normalize_lexically (lexpath_components (normalize_lexically components)) =
  normalize_lexically components.
Proof.
  destruct (normalize_lexically components) as [[] comps]; unfold lexpath_components; simpl.
  - unfold normalize_lexically. simpl. by rewrite normalize_lexically_step_normals.
  - unfold normalize_lexically. by rewrite normalize_lexically_step_normals.
Qed.

(** Lexical normalization skips a [.] component, and cancels a normal
    component followed by [..]. *)
Theorem normalize_lexically_cur_dir_parent_dir cs1 cs2 name :
  normalize_lexically (cs1 ++ CurDir :: cs2) = normalize_lexically (cs1 ++ cs2) ∧
  normalize_lexically (cs1 ++ Normal name :: ParentDir :: cs2) = normalize_lexically (cs1 ++ cs2).
Proof.
  rewrite !normalize_lexically_app. cbn [fold_left]. split; [done|].
  by rewrite normalize_lexically_pop_push.
Qed.

(** A [..] with nothing left to remove (at the root, or at the start of a
    relative path) is dropped: it never climbs above the root. *)
Theorem normalize_lexically_parent_dir_at_top cs1 cs2 :
  lp_components (normalize_lexically cs1) = [] →
  normalize_lexically (cs1 ++ ParentDir :: cs2) = normalize_lexically (cs1 ++ cs2).
Proof.
  intros H. rewrite !normalize_lexically_app. simpl. f_equal.
  unfold lexpath_pop. by rewrite H.
Qed.

(* ------------------------------------------------------------------ *)
(** ** Properties of trimming and of the command-token candidates *)







(* ------------------------------------------------------------------ *)
(** ** Properties of the macOS permission values *)





(* ------------------------------------------------------------------ *)
(** ** Witnesses of the further properties *)


Lemma normalize_permission_path_blank_witness :
  Forall (fun c => is_ascii_whitespace c = true) (list_ascii_of_string "  ") ∧
  normalize_permission_path None (fun dir _ => Some dir) ["skills"; "demo"] "  " = None.
Proof.
  split; [repeat constructor|].
  apply (normalize_permission_path_blank None (fun dir _ => Some dir) ["skills"; "demo"] "  ").
  repeat constructor.
Defined.

Lemma find_matching_skill_permission_profile_most_specific_witness :
  let profile :=
    {| approval_policy := AskForApproval.Never; sandbox_policy := new_read_only_policy;
       network := None; windows_sandbox_mode := None;
       macos_seatbelt_profile_extensions := None |} in
  let outer := {| skill_name := "outer"; skill_path := ["a"; "SKILL.md"];
                  permission_profile := Some profile |} in
  let inner := {| skill_name := "inner"; skill_path := ["a"; "b"; "SKILL.md"];
                  permission_profile := Some profile |} in
  let m := {| matched_profile := profile; matched_skill_dir := ["a"; "b"] |} in
  find_matching_skill_permission_profile Some (fun _ _ => []) ["ls"] ["a"; "b"; "c"]
    [outer; inner] ∅ = Some m ∧
  ∃ cwd, Some ["a"; "b"; "c"] = Some cwd ∧
    (∃ skill, skill ∈ [outer; inner] ∧
       skill_candidate Some (fun _ _ => []) ["ls"] cwd ∅ skill m) ∧
    ∀ skill m', skill ∈ [outer; inner] →
      skill_candidate Some (fun _ _ => []) ["ls"] cwd ∅ skill m' →
      length (matched_skill_dir m') ≤ length (matched_skill_dir m) ∧
      compare_path_specificity (matched_skill_dir m') (matched_skill_dir m) ≠ Gt.
Proof.
  intros profile outer inner m.
  assert (H : find_matching_skill_permission_profile Some (fun _ _ => []) ["ls"] ["a"; "b"; "c"]
                [outer; inner] ∅ = Some m) by (vm_compute; reflexivity).
  split; [exact H|].
  exact (find_matching_skill_permission_profile_most_specific Some (fun _ _ => [])
           ["ls"] ["a"; "b"; "c"] [outer; inner] ∅ m H).
Defined.

Lemma find_matching_skill_permission_profile_complete_witness :
  let profile :=
    {| approval_policy := AskForApproval.Never; sandbox_policy := new_read_only_policy;
       network := None; windows_sandbox_mode := None;
       macos_seatbelt_profile_extensions := None |} in
  let skill := {| skill_name := "demo"; skill_path := ["a"; "SKILL.md"];
                  permission_profile := Some profile |} in
  let m := {| matched_profile := profile; matched_skill_dir := ["a"] |} in
  Some ["a"; "b"] = Some ["a"; "b"] ∧ skill ∈ [skill] ∧
  skill_candidate Some (fun _ _ => [["a"; "x"]]) ["cat"; "a/x"] ["a"; "b"] ∅ skill m ∧
  ∃ m', find_matching_skill_permission_profile Some (fun _ _ => [["a"; "x"]]) ["cat"; "a/x"]
          ["a"; "b"] [skill] ∅ = Some m'.
Proof.
  intros profile skill m.
  assert (Hc : skill_candidate Some (fun _ _ => [["a"; "x"]]) ["cat"; "a/x"] ["a"; "b"] ∅ skill m).
  { split; [set_solver|]. split; [reflexivity|].
    split; [exists ["a"]; split; reflexivity | left; reflexivity]. }
  split; [reflexivity|]. split; [constructor|]. split; [exact Hc|].
  apply (find_matching_skill_permission_profile_complete Some (fun _ _ => [["a"; "x"]])
           ["cat"; "a/x"] ["a"; "b"] [skill] ∅ ["a"; "b"] skill m); [reflexivity|constructor|exact Hc].
Defined.

Lemma resolve_effective_command_permissions_danger_turn_witness :
  let profile :=
    {| approval_policy := AskForApproval.Never;
       sandbox_policy := ReadOnly (ReadOnlyAccess.Restricted true [["a"]]);
       network := None; windows_sandbox_mode := None;
       macos_seatbelt_profile_extensions := None |} in
  let skill := {| skill_name := "demo"; skill_path := ["a"; "SKILL.md"];
                  permission_profile := Some profile |} in
  let m := {| matched_profile := profile; matched_skill_dir := ["a"] |} in
  find_matching_skill_permission_profile Some (fun _ _ => []) ["ls"] ["a"] [skill] ∅ = Some m ∧
  let effective :=
    resolve_effective_command_permissions Some (fun _ _ => []) ["ls"] ["a"]
      AskForApproval.OnRequest DangerFullAccess ["w"] None [skill] ∅ in
  eff_sandbox_policy effective = sandbox_policy (matched_profile m) ∧
  eff_sandbox_cwd effective = matched_skill_dir m.
Proof.
  intros profile skill m.
  assert (H : find_matching_skill_permission_profile Some (fun _ _ => []) ["ls"] ["a"] [skill] ∅
              = Some m) by (vm_compute; reflexivity).
  split; [exact H|].
  exact (resolve_effective_command_permissions_danger_turn Some (fun _ _ => []) ["ls"] ["a"]
           AskForApproval.OnRequest ["w"] None [skill] ∅ m H).
Defined.

Lemma normalize_lexically_parent_dir_at_top_witness :
  lp_components (normalize_lexically [RootDir]) = [] ∧
  normalize_lexically ([RootDir] ++ ParentDir :: [Normal "etc"]) =
  normalize_lexically ([RootDir] ++ [Normal "etc"]).
Proof.
  split; [reflexivity|].
  apply (normalize_lexically_parent_dir_at_top [RootDir] [Normal "etc"]). reflexivity.
Defined.
